(** * wunjo face swap: identity tracker and video / image orchestrators

    A shallow embedding of [deepfake/src/utils/faceswap.py]
    (class [FaceSwapDeepfake]) and the properties of its tracking and
    pipeline logic.

    Conventions of the embedding.
    - The detector, the similarity test, the content filter and the swap
      model live outside this file of the repository; they are fields of
      the record [FaceSwapDeepfake], the [self] of every method.
    - A Python [float] is an IEEE 754 binary64 number ([spec_float] with 53
      bits of precision); the arithmetic of the class on the selector, the
      image size and the centers is float arithmetic, each operation rounded
      to nearest, and raises where Python raises.
    - The boxes the detector returns are data from outside this file; their
      coordinates are taken as exact rationals ([Q]), and [int()] on them is
      truncation toward zero.
    - Frame numbers and list indices are natural numbers.
    - Python exceptions are the constructors of [exn]; a function that can
      raise returns a [result].
    - An entry of the input directory is a file name together with the image
      [cv2.imread] decodes from it; the directory [faceswap_frames] written by
      the threaded strategy is a finite map from file names to images. *)

From Stdlib Require Import ZArith QArith Qabs Lia Psatz.
From Stdlib Require Import SpecFloat.
From Stdlib Require Import Strings.Ascii Strings.String DecimalString DecimalN.
From stdpp Require Import base option list sorting gmap strings.

#[local] Open Scope Z_scope.
#[local] Open Scope string_scope.
#[local] Open Scope list_scope.

(** ** Exceptions *)

Inductive exn : Type :=
| FaceNotDetectedError (msg : string)
| ValueError (msg : string)
| IndexError
| ZeroDivisionError
| OverflowError
| CvError.

Inductive result (A : Type) : Type :=
| Ok (a : A)
| Raise (e : exn).
Arguments Ok {A} a.
Arguments Raise {A} e.

#[export] Instance result_ret : MRet result := fun A a => Ok a.
#[export] Instance result_bind : MBind result := fun A B f m =>
  match m with
  | Ok a => f a
  | Raise e => Raise e
  end.

#[export] Instance result_fmap : FMap result := fun A B f m =>
  match m with
  | Ok a => Ok (f a)
  | Raise e => Raise e
  end.

(** ** Numbers *)

(** Python's [int(q)]: truncation toward zero. *)
Definition py_int (q : Q) : Z := Z.quot (Qnum q) (Z.pos (Qden q)).

Definition Qltb (a b : Q) : bool := negb (Qle_bool b a).

(** *** Python's [float]: IEEE 754 binary64 *)

Definition float : Type := spec_float.

Definition fadd : float -> float -> float := SFadd 53 1024.
Definition fmul : float -> float -> float := SFmul 53 1024.
Definition fdiv : float -> float -> float := SFdiv 53 1024.
Definition fsqrt : float -> float := SFsqrt 53 1024.

(** [x < y] on floats. *)
Definition flt : float -> float -> bool := SFltb.

(** The float nearest to an integer. *)
Definition float_of_Z (z : Z) : float := binary_normalize 53 1024 z 0 false.

(** An [int] where a float is needed: [OverflowError] when it is too large
    for a float. *)
Definition float_of_int (z : Z) : result float :=
  match float_of_Z z with
  | S754_infinity _ => Raise OverflowError
  | x => Ok x
  end.

(** [x / y] on floats. *)
Definition truediv (x y : float) : result float :=
  match y with
  | S754_zero _ => Raise ZeroDivisionError
  | _ => Ok (fdiv x y)
  end.

(** [int(x)] on a float: truncation toward zero. *)
Definition int_of_float (x : float) : result Z :=
  match x with
  | S754_zero _ => Ok 0
  | S754_infinity _ => Raise OverflowError
  | S754_nan => Raise (ValueError "cannot convert float NaN to integer")
  | S754_finite s m e =>
      let magnitude := Z.shiftl (Z.pos m) e in
      Ok (if s then - magnitude else magnitude)
  end.

(** [math.sqrt(z)] on an [int]. *)
Definition math_sqrt (z : Z) : result float :=
  x ← float_of_int z;
  if flt x (float_of_Z 0) then Raise (ValueError "math domain error")
  else Ok (fsqrt x).

(** ** Face descriptors *)

Definition Emb : Type := list Q.

Record Face : Type := {
  bbox : Q * Q * Q * Q;
  gender : option Z;
  normed_embedding : Emb
}.

(** The user's crop selector, in canvas coordinates.  Its numbers are
    floats (a Python [int] below [2 ^ 53] acts in the operations of
    [get_real_crop_box] as the float of the same value). *)
Record SquareFace : Type := {
  sq_x : float;
  sq_y : float;
  canvasWidth : float;
  canvasHeight : float
}.

(** [x1 <= x_center <= x2 and y1 <= y_center <= y2] *)
Definition bbox_contains (b : Q * Q * Q * Q) (x_center y_center : Z) : bool :=
  let '(x1, y1, x2, y2) := b in
  Qle_bool x1 (inject_Z x_center) && Qle_bool (inject_Z x_center) x2
  && Qle_bool y1 (inject_Z y_center) && Qle_bool (inject_Z y_center) y2.

(** [get_center]: [int((x1 + x2) / 2), int((y1 + y2) / 2)] *)
Definition bbox_center (b : Q * Q * Q * Q) : Z * Z :=
  let '(x1, y1, x2, y2) := b in
  (py_int ((x1 + x2) / 2), py_int ((y1 + y2) / 2)).

Definition get_center (face : Face) : Z * Z := bbox_center (bbox face).

(** [math.sqrt((p1[0] - p2[0]) ** 2 + (p1[1] - p2[1]) ** 2)], on points with
    [int] coordinates. *)
Definition euclidean_distance (point1 point2 : Z * Z) : result float :=
  math_sqrt ((point1.1 - point2.1) ^ 2 + (point1.2 - point2.2) ^ 2).

(** [abs((x1 + x2) / 2 - x_center) + abs((y1 + y2) / 2 - y_center)] *)
Definition manhattan_distance (face : Face) (x_center y_center : Z) : Q :=
  let '(x1, y1, x2, y2) := bbox face in
  (Qabs ((x1 + x2) / 2 - inject_Z x_center)
   + Qabs ((y1 + y2) / 2 - inject_Z y_center))%Q.

(** [min(range(len(distances)), key=distances.__getitem__)]: the first index
    of a smallest element. *)
Fixpoint min_index_from (i : nat) (best : nat) (bestv : Q) (distances : list Q) : nat :=
  match distances with
  | [] => best
  | d :: rest =>
      if Qltb d bestv then min_index_from (S i) i d rest
      else min_index_from (S i) best bestv rest
  end.

Definition min_index (distances : list Q) : option nat :=
  match distances with
  | [] => None
  | d :: rest => Some (min_index_from 1 0%nat d rest)
  end.

(** [enumerate(l)] *)
Definition enumerate {A} (l : list A) : list (nat * A) := imap (fun i a => (i, a)) l.

(** [l[i]], raising [IndexError] out of range (indices are never negative
    here). *)
Definition getitem {A} (l : list A) (i : nat) : result A :=
  match l !! i with
  | Some a => Ok a
  | None => Raise IndexError
  end.

(** ** The class [FaceSwapDeepfake] *)

(** [frame.shape]: (height, width) of an image buffer. *)
Class Image (Frame : Type) : Type := shape : Frame -> Z * Z.

(** The fields of [self] that the tracking and pipeline code reads: the
    collaborators (detector and similarity test of [face_recognition], the
    content filter, the swap model) and the two options of [__init__]. *)
Record FaceSwapDeepfake (Frame : Type) : Type := {
  (** [self.face_recognition.get_faces(image)] *)
  get_faces : Frame -> list Face;
  (** [self.face_recognition.is_similar_face(embedding, history, coeff)] *)
  is_similar_face : Emb -> list Emb -> Q -> bool;
  (** [self.filter_model.status(frame)]: [true] when the frame is safe. *)
  filter_status : Frame -> bool;
  (** [self.face_swap_model.get(frame, face, source_face, paste_back=True)] *)
  face_swap_model_get : Frame -> Face -> Face -> Frame;
  similarface : bool;
  similar_coeff : Q
}.
Arguments get_faces {Frame} _ _.
Arguments is_similar_face {Frame} _ _ _ _.
Arguments filter_status {Frame} _ _.
Arguments face_swap_model_get {Frame} _ _ _ _.
Arguments similarface {Frame} _.
Arguments similar_coeff {Frame} _.

Section FaceSwap.

Context {Frame : Type} `{Image Frame} (self : FaceSwapDeepfake Frame).

(** A frame file: its name and the image [cv2.imread] returns for it. *)
Definition Path : Type := string * Frame.
Definition imread (p : Path) : Frame := p.2.
Definition basename (p : Path) : string := p.1.

(** *** [get_real_crop_box] *)
Definition get_real_crop_box (frame : Frame) (squareFace : option SquareFace)
  : result (option Z * option Z) :=
  match squareFace with
  | Some sf =>
      let '(originalHeight, originalWidth) := shape frame in
      let canvasWidth := canvasWidth sf in
      let canvasHeight := canvasHeight sf in
      originalWidth ← float_of_int originalWidth;
      scaleFactorX ← truediv originalWidth canvasWidth;
      originalHeight ← float_of_int originalHeight;
      scaleFactorY ← truediv originalHeight canvasHeight;
      let newX1 := fmul (sq_x sf) scaleFactorX in
      let newX2 := fmul (fadd (sq_x sf) (float_of_Z 1)) scaleFactorX in
      let newY1 := fmul (sq_y sf) scaleFactorY in
      let newY2 := fmul (fadd (sq_y sf) (float_of_Z 1)) scaleFactorY in
      let center_x := fdiv (fadd newX1 newX2) (float_of_Z 2) in
      let center_y := fdiv (fadd newY1 newY2) (float_of_Z 2) in
      center_x ← int_of_float center_x;
      center_y ← int_of_float center_y;
      Ok (Some center_x, Some center_y)
  | None => Ok (None, None)
  end.

(** *** [get_min_distance], with its default [threshold=0.35] *)

(** The literal [0.35]: the float nearest to 35/100,
    [0x1.6666666666666p-2]. *)
Definition threshold : float := fdiv (float_of_Z 35) (float_of_Z 100).

Definition get_min_distance (image : Frame) : result float :=
  let '(originalHeight, originalWidth) := shape image in
  diagonal ← math_sqrt (originalHeight ^ 2 + originalWidth ^ 2);
  Ok (fmul diagonal threshold).

(** *** [face_detect_with_alignment_crop] *)

(** The local variables of the function that live across frames. *)
Record TrackState : Type := {
  predictions : list (list (option Face));
  face_embedding_list : list Emb;
  face_gender : option Z;
  x_center : option Z;
  y_center : option Z;
  min_distance : float
}.

Definition append_prediction (sel : list (option Face)) (st : TrackState) : TrackState :=
  {| predictions := predictions st ++ [sel];
     face_embedding_list := face_embedding_list st;
     face_gender := face_gender st;
     x_center := x_center st;
     y_center := y_center st;
     min_distance := min_distance st |}.

Definition set_min_distance (d : float) (st : TrackState) : TrackState :=
  {| predictions := predictions st;
     face_embedding_list := face_embedding_list st;
     face_gender := face_gender st;
     x_center := x_center st;
     y_center := y_center st;
     min_distance := d |}.

(** The four statements that follow every adoption in the cold branches:
    gender, prediction, embedding, new center. *)
Definition adopt (face : Face) (st : TrackState) : TrackState :=
  let '(cx, cy) := bbox_center (bbox face) in
  {| predictions := predictions st ++ [[Some face]];
     face_embedding_list := face_embedding_list st ++ [normed_embedding face];
     face_gender := gender face;
     x_center := Some cx;
     y_center := Some cy;
     min_distance := min_distance st |}.

(** Lines 189-194: the nearest face strictly below the running minimum. *)
Fixpoint closest_loop (center : Z * Z) (dets : list Face)
    (min_distance : float) (closest_face : option Face)
    : result (float * option Face) :=
  match dets with
  | [] => Ok (min_distance, closest_face)
  | face :: rest =>
      let face_center := get_center face in
      distance ← euclidean_distance center face_center;
      if flt distance min_distance
      then closest_loop center rest distance (Some face)
      else closest_loop center rest min_distance closest_face
  end.

(** Lines 177-201: the state is unseeded and a selector center is known.
    ([if closest_face:] holds for every detected face, a non-empty mapping.) *)
Definition cold_selector_step (n : nat) (dets : list Face) (xc yc : Z)
    (st : TrackState) : result TrackState :=
  match List.find (fun face => bbox_contains (bbox face) xc yc) dets with
  | Some face => Ok (adopt face st)
  | None =>
      if (n =? 0)%nat then
        '(md, closest_face) ← closest_loop (xc, yc) dets (min_distance st) None;
        match closest_face with
        | Some face => Ok (adopt face (set_min_distance md st))
        | None => Ok (set_min_distance md st)
        end
      else Ok st
  end.

(** An entry of [local_face_param]. *)
Record Param : Type := {
  is_center : bool;
  is_gender : bool;
  is_embed : bool;
  p_bbox : Q * Q * Q * Q;
  p_gender : option Z;
  p_embed : Emb;
  p_id : nat
}.

(** Lines 204-219: the first loop of the warm branch.  Its body assigns
    [x_center], [y_center] from the face under test before it compares them
    with that face's box. *)
Definition warm_scan_body (st : TrackState)
    (acc : option Z * option Z * list Param) (item : nat * Face)
    : option Z * option Z * list Param :=
  let '(_, _, local_face_param) := acc in
  let '(i, face) := item in
  let '(x_center, y_center) := bbox_center (bbox face) in
  let normed_embedding := normed_embedding face in
  let is_similar :=
    is_similar_face self normed_embedding (face_embedding_list st)
      (similar_coeff self) in
  if bbox_contains (bbox face) x_center y_center then
    (Some x_center, Some y_center,
     local_face_param ++
     [{| is_center := true;
         is_gender := bool_decide (face_gender st = gender face);
         is_embed := is_similar; p_bbox := bbox face;
         p_gender := gender face; p_embed := normed_embedding; p_id := i |}])
  else
    (Some x_center, Some y_center,
     local_face_param ++
     [{| is_center := false;
         is_gender := bool_decide (face_gender st = gender face);
         is_embed := is_similar; p_bbox := bbox face;
         p_gender := gender face; p_embed := normed_embedding; p_id := i |}]).

Definition warm_scan (st : TrackState) (dets : list Face)
    : option Z * option Z * list Param :=
  foldl (warm_scan_body st) (x_center st, y_center st, []) (enumerate dets).

Definition accepts (param : Param) : bool :=
  (is_center param || is_gender param) && is_embed param.

(** Lines 220-232: the second loop of the warm branch, with its [break]. *)
Fixpoint warm_select (dets : list Face) (params : list Param)
    (st : TrackState) (local_predictions : list Face)
    : result (TrackState * list Face) :=
  match params with
  | [] => Ok (st, local_predictions)
  | param :: rest =>
      if accepts param then
        face ← getitem dets (p_id param);
        let '(cx, cy) := bbox_center (p_bbox param) in
        let st' :=
          {| predictions := predictions st;
             face_embedding_list := face_embedding_list st ++ [p_embed param];
             face_gender := p_gender param;
             x_center := Some cx;
             y_center := Some cy;
             min_distance := min_distance st |} in
        if negb (similarface self) then Ok (st', local_predictions ++ [face])
        else warm_select dets rest st' (local_predictions ++ [face])
      else warm_select dets rest st local_predictions
  end.

(** Lines 202-236. *)
Definition warm_step (dets : list Face) (st : TrackState) : result TrackState :=
  let '(xc, yc, local_face_param) := warm_scan st dets in
  let st1 :=
    {| predictions := predictions st;
       face_embedding_list := face_embedding_list st;
       face_gender := face_gender st;
       x_center := xc;
       y_center := yc;
       min_distance := min_distance st |} in
  '(st2, local_predictions) ← warm_select dets local_face_param st1 [];
  if (0 <? length local_predictions)%nat
  then Ok (append_prediction (Some <$> local_predictions) st2)
  else Ok (append_prediction [None] st2).

(** One iteration of the loop of line 161 on an already detected frame. *)
Definition crop_dispatch (n : nat) (dets : list Face) (st : TrackState)
    : result TrackState :=
  match dets with
  | [] => Ok (append_prediction [None] st)
  | face :: _ =>
      match x_center st, y_center st with
      | Some xc, Some yc =>
          match face_embedding_list st with
          | [] => cold_selector_step n dets xc yc st
          | _ :: _ => warm_step dets st
          end
      | _, _ => Ok (adopt face st)
      end
  end.

Definition crop_step (n : nat) (image_file : Path) (st : TrackState)
    : result TrackState :=
  let image := imread image_file in
  let dets := get_faces self image in
  crop_dispatch n dets st.

Fixpoint crop_loop (n : nat) (image_files : list Path) (st : TrackState)
    : result TrackState :=
  match image_files with
  | [] => Ok st
  | image_file :: rest =>
      st' ← crop_step n image_file st;
      crop_loop (S n) rest st'
  end.

Definition crop_init (xc yc : option Z) (d : float) : TrackState :=
  {| predictions := []; face_embedding_list := []; face_gender := None;
     x_center := xc; y_center := yc; min_distance := d |}.

Definition face_detect_with_alignment_crop (image_files : list Path)
    (face_fields : option SquareFace) : result (list (list (option Face))) :=
  first_file ← getitem image_files 0;
  let first_image := imread first_file in
  '(xc, yc) ← get_real_crop_box first_image face_fields;
  min_distance ← get_min_distance first_image;
  st ← crop_loop 0 image_files (crop_init xc yc min_distance);
  Ok (predictions st).

(** *** [face_detect_with_alignment_all] *)
Definition face_detect_with_alignment_all (image_files : list Path)
    : list (list (option Face)) :=
  foldl (fun predictions image_file =>
           let image := imread image_file in
           let dets := get_faces self image in
           match dets with
           | [] => predictions ++ [[None]]
           | _ :: _ => predictions ++ [Some <$> dets]
           end)
        [] image_files.

(** *** The world the orchestrators act on *)

(** What [cv2.VideoWriter] was opened with and the frames written to it. *)
Record VideoWriter : Type := {
  fourcc : string;
  vw_fps : Q;
  frame_size : Z * Z;
  written : list Frame
}.

Definition out_write (frame : Frame) (out : VideoWriter) : VideoWriter :=
  {| fourcc := fourcc out; vw_fps := vw_fps out; frame_size := frame_size out;
     written := written out ++ [frame] |}.

(** [for frame_file in files: out.write(cv2.imread(frame_file))] *)
Definition write_files (files : list Path) (out : VideoWriter) : VideoWriter :=
  foldl (fun out frame_file => out_write (imread frame_file) out) out files.

(** [disk]: the images saved with [cv2.imwrite], by file name;
    [swap_calls]: every call of the swap model, with the frame and the face
    it was given; [progress]: [self.progress]. *)
Record World : Type := {
  disk : gmap string Frame;
  swap_calls : list (Frame * Face);
  progress : nat
}.

Definition imwrite (filename : string) (frame : Frame) (w : World) : World :=
  {| disk := <[filename := frame]> (disk w);
     swap_calls := swap_calls w; progress := progress w |}.

Definition call_swap (frame : Frame) (face source_face : Face) (w : World)
    : Frame * World :=
  (face_swap_model_get self frame face source_face,
   {| disk := disk w; swap_calls := swap_calls w ++ [(frame, face)];
      progress := progress w |}).

(** [for face in dets: if face is None: break
                       else: tmp_frame = swap(tmp_frame, face, source_face)] *)
Fixpoint swap_faces (tmp_frame : Frame) (dets : list (option Face))
    (source_face : Face) (w : World) : Frame * World :=
  match dets with
  | [] => (tmp_frame, w)
  | None :: _ => (tmp_frame, w)
  | Some face :: rest =>
      let '(tmp_frame, w) := call_swap tmp_frame face source_face w in
      swap_faces tmp_frame rest source_face w
  end.

(** *** [process_frame] *)

(** [f"{idx:04d}"] *)
Definition format_04d (idx : nat) : string :=
  let digits := NilEmpty.string_of_uint (N.to_uint (N.of_nat idx)) in
  String.concat "" (replicate (4 - String.length digits) "0") ++ digits.

(** [f"frame_{idx:04d}.png"], inside [output_directory]. *)
Definition frame_filename (idx : nat) : string :=
  "frame_" ++ format_04d idx ++ ".png".

Record Args : Type := {
  a_frame : Frame;
  a_face_det_result : list (option Face);
  a_source_face : Face;
  a_idx : nat
}.

Definition process_frame (args : Args) (w : World) : string * World :=
  let tmp_frame := a_frame args in
  let '(tmp_frame, w) :=
    if filter_status self tmp_frame
    then swap_faces tmp_frame (a_face_det_result args) (a_source_face args) w
    else (tmp_frame, w) in
  let filename := frame_filename (a_idx args) in
  let w := imwrite filename tmp_frame w in
  (filename,
   {| disk := disk w; swap_calls := swap_calls w; progress := S (progress w) |}).

(** *** The parts shared by the two video strategies *)

(** [fname.endswith(suffix)] *)
Definition endswith (fname suffix : string) : bool :=
  (String.length suffix <=? String.length fname)%nat
  && String.eqb (substring (String.length fname - String.length suffix)
                           (String.length suffix) fname) suffix.

Definition path_le (a b : Path) : Prop := String.leb (basename a) (basename b).

(** [sorted(...)] on paths, [.sort()] on file names. *)
Definition sorted_paths (l : list Path) : list Path := merge_sort path_le l.
Definition sorted_names (l : list string) : list string := merge_sort String.le l.

(** Truth value of an optional frame number: [None] and [0] are false. *)
Definition truthy (o : option nat) : bool :=
  match o with
  | Some (S _) => true
  | _ => false
  end.

Definition or_zero (o : option nat) : nat := default 0%nat o.

(** [l[start:end]] for non-negative bounds. *)
Definition slice {A} (l : list A) (start_frame end_frame : nat) : list A :=
  drop start_frame (take end_frame l).

(** [if start_frame and end_frame: frame_files = frame_files[start:end]] *)
Definition select_range (frame_files : list Path) (start_frame end_frame : option nat)
    : list Path :=
  if truthy start_frame && truthy end_frame
  then slice frame_files (or_zero start_frame) (or_zero end_frame)
  else frame_files.

Definition video_fourcc (video_format : string) : result string :=
  if String.eqb video_format ".mp4" then Ok "mp4v"
  else if String.eqb video_format ".avi" then Ok "XVID"
  else Raise (ValueError ("Unsupported video format: " ++ video_format)).

(** Lines 320-325 and 385-390. *)
Definition detect_phase (multiface : bool) (frame_files : list Path)
    (target_face_fields : option SquareFace) : result (list (list (option Face))) :=
  if multiface then Ok (face_detect_with_alignment_all frame_files)
  else face_detect_with_alignment_crop frame_files target_face_fields.

(** [if start_frame: for frame_file in full_frame_files[:start_frame]: ...] *)
Definition write_head (full_frame_files : list Path) (start_frame : option nat)
    (out : VideoWriter) : VideoWriter :=
  if truthy start_frame
  then write_files (take (or_zero start_frame) full_frame_files) out
  else out.

(** [if end_frame: for frame_file in full_frame_files[end_frame:]: ...] *)
Definition write_tail (full_frame_files : list Path) (end_frame : option nat)
    (out : VideoWriter) : VideoWriter :=
  if truthy end_frame
  then write_files (drop (or_zero end_frame) full_frame_files) out
  else out.

(** *** [swap_video_thread] *)

(** Lines 332-335, the argument list: [frame_files[i]] and
    [face_det_results[i]] for [i in range(len(frame_files))]. *)
Definition build_jobs (frame_files : list Path)
    (face_det_results : list (list (option Face))) (source_face : Face)
    : result (list Args) :=
  mapM (fun i =>
          frame_file ← getitem frame_files i;
          face_det_result ← getitem face_det_results i;
          Ok {| a_frame := imread frame_file;
                a_face_det_result := face_det_result;
                a_source_face := source_face;
                a_idx := i |})
       (seq 0 (length frame_files)).

(** [list(executor.map(self.process_frame, jobs))].  [order] is the order
    in which the pool completes the jobs (a permutation of their indices);
    every job fills its own future, and the futures are read in the order
    of the jobs. *)
Definition executor_map (order : list nat) (jobs : list Args) (w : World)
    : list string * World :=
  let '(futures, w) :=
    foldl (fun '(futures, w) k =>
             match jobs !! k with
             | Some args =>
                 let '(filename, w) := process_frame args w in
                 (<[k := Some filename]> futures, w)
             | None => (futures, w)
             end)
          (replicate (length jobs) None, w) order in
  (omap (fun future => future) futures, w).

(** [for frame_file in processed_frame_files: out.write(cv2.imread(frame_file))],
    reading what the workers saved; writing the [None] that [cv2.imread]
    returns for a missing file is an OpenCV error. *)
Fixpoint write_processed (processed_frame_files : list string) (w : World)
    (out : VideoWriter) : result VideoWriter :=
  match processed_frame_files with
  | [] => Ok out
  | frame_file :: rest =>
      match disk w !! frame_file with
      | Some frame => write_processed rest w (out_write frame out)
      | None => Raise CvError
      end
  end.

Definition swap_video_thread (order : list nat) (target_frames_path : list Path)
    (source_face : Face) (target_face_fields : option SquareFace)
    (multiface : bool) (fps : Q) (start_frame end_frame : option nat)
    (video_format : string) (w : World) : result (VideoWriter * World) :=
  let frame_files :=
    sorted_paths (List.filter (fun p => endswith (basename p) ".jpg"
                                        || endswith (basename p) ".png")
                              target_frames_path) in
  let full_frame_files := frame_files in
  let frame_files := select_range frame_files start_frame end_frame in
  first_file ← getitem frame_files 0;
  let '(frame_h, frame_w) := shape (imread first_file) in
  fourcc ← video_fourcc video_format;
  let out := {| fourcc := fourcc; vw_fps := fps; frame_size := (frame_w, frame_h);
                written := [] |} in
  face_det_results ← detect_phase multiface frame_files target_face_fields;
  jobs ← build_jobs frame_files face_det_results source_face;
  let '(processed_frame_files, w) := executor_map order jobs w in
  let processed_frame_files := sorted_names processed_frame_files in
  let out := write_head full_frame_files start_frame out in
  out ← write_processed processed_frame_files w out;
  let out := write_tail full_frame_files end_frame out in
  Ok (out, w).

(** *** [swap_video_cuda] *)

(** Lines 401-412. *)
Fixpoint cuda_loop (frame_files : list Path) (source_face : Face)
    (items : list (nat * list (option Face))) (out : VideoWriter) (w : World)
    : result (VideoWriter * World) :=
  match items with
  | [] => Ok (out, w)
  | (i, dets) :: rest =>
      frame_file ← getitem frame_files i;
      let tmp_frame := imread frame_file in
      let '(tmp_frame, w) :=
        if filter_status self tmp_frame then swap_faces tmp_frame dets source_face w
        else (tmp_frame, w) in
      cuda_loop frame_files source_face rest (out_write tmp_frame out) w
  end.

Definition swap_video_cuda (target_frames_path : list Path)
    (source_face : Face) (target_face_fields : option SquareFace)
    (multiface : bool) (fps : Q) (start_frame end_frame : option nat)
    (video_format : string) (w : World) : result (VideoWriter * World) :=
  let frame_files :=
    sorted_paths (List.filter (fun p => endswith (basename p) ".png")
                              target_frames_path) in
  let full_frame_files := frame_files in
  let frame_files := select_range frame_files start_frame end_frame in
  first_file ← getitem frame_files 0;
  let '(frame_h, frame_w) := shape (imread first_file) in
  fourcc ← video_fourcc video_format;
  let out := {| fourcc := fourcc; vw_fps := fps; frame_size := (frame_w, frame_h);
                written := [] |} in
  face_det_results ← detect_phase multiface frame_files target_face_fields;
  let out := write_head full_frame_files start_frame out in
  '(out, w) ← cuda_loop frame_files source_face (enumerate face_det_results) out w;
  let out := write_tail full_frame_files end_frame out in
  Ok (out, w).

(** *** [swap_video]: [use_cuda] is the test of line 276. *)
Definition swap_video (use_cuda : bool) (order : list nat)
    (target_frames_path : list Path)
    (source_face : Face) (target_face_fields : option SquareFace)
    (multiface : bool) (fps : Q) (start_frame end_frame : option nat)
    (video_format : string) (w : World) : result (VideoWriter * World) :=
  if use_cuda
  then swap_video_cuda target_frames_path source_face target_face_fields
         multiface fps start_frame end_frame video_format w
  else swap_video_thread order target_frames_path source_face target_face_fields
         multiface fps start_frame end_frame video_format w.

(** *** [swap_image] *)

Definition save_file : string := "swapped_image.png".

(** Lines 441-449: the distances seen so far, or the first face whose box
    contains the center. *)
Fixpoint image_scan (x_center y_center : Z) (dets : list Face) (distances : list Q)
    : Face + list Q :=
  match dets with
  | [] => inr distances
  | face :: rest =>
      let distance := manhattan_distance face x_center y_center in
      let distances := distances ++ [distance] in
      if bbox_contains (bbox face) x_center y_center then inl face
      else image_scan x_center y_center rest distances
  end.

(** [for face in dets: target_frame = swap(target_frame, face, source_face)] *)
Definition swap_all (target_frame : Frame) (dets : list Face)
    (source_face : Face) (w : World) : Frame * World :=
  foldl (fun '(target_frame, w) face => call_swap target_frame face source_face w)
        (target_frame, w) dets.

Definition crop_field_error : exn :=
  FaceNotDetectedError "Face is not detected in user crop field in target image!".

Definition swap_image (target_frame : Frame) (source_face : Face)
    (face_fields : option SquareFace) (multiface : bool) (w : World)
    : result (Frame * World) :=
  if filter_status self target_frame then
    '(x_center, y_center) ← get_real_crop_box target_frame face_fields;
    let dets := get_faces self target_frame in
    match dets with
    | [] => Raise (FaceNotDetectedError "Face is not detected in target image!")
    | _ :: _ =>
        match x_center, y_center, multiface with
        | Some xc, Some yc, false =>
            match image_scan xc yc dets [] with
            | inl face =>
                let '(target_frame, w) := call_swap target_frame face source_face w in
                Ok (target_frame, imwrite save_file target_frame w)
            | inr distances =>
                if (0 <? length distances)%nat then
                  match min_index distances with
                  | Some min_index =>
                      face ← getitem dets min_index;
                      let '(target_frame, w) :=
                        call_swap target_frame face source_face w in
                      Ok (target_frame, imwrite save_file target_frame w)
                  | None => Raise (ValueError "min() arg is an empty sequence")
                  end
                else Raise crop_field_error
            end
        | _, _, _ =>
            let '(target_frame, w) := swap_all target_frame dets source_face w in
            Ok (target_frame, imwrite save_file target_frame w)
        end
    end
  else
    Ok (target_frame, imwrite save_file target_frame w).

(** *** [face_detect_with_alignment_from_source_frame] *)

Definition source_crop_field_error : exn :=
  FaceNotDetectedError "Face is not detected in user crop field!".

(** Lines 89-111.  The loop of lines 99-104 is the loop of lines 442-449
    with [return face] for its body's swap, hence [image_scan]. *)
Definition face_detect_with_alignment_from_source_frame (frame : Frame)
    (face_fields : option SquareFace) : result Face :=
  '(x_center, y_center) ← get_real_crop_box frame face_fields;
  let dets := get_faces self frame in
  match dets with
  | [] => Raise (FaceNotDetectedError "Face is not detected!")
  | _ :: _ =>
      match x_center, y_center with
      | Some xc, Some yc =>
          match image_scan xc yc dets [] with
          | inl face => Ok face
          | inr distances =>
              if (0 <? length distances)%nat then
                match min_index distances with
                | Some min_index => getitem dets min_index
                | None => Raise (ValueError "min() arg is an empty sequence")
                end
              else Raise source_crop_field_error
          end
      | _, _ => getitem dets 0
      end
  end.

(** *** [get_smoothened_boxes]

    [boxes] is an array with one row per frame, updated in place.
    [np.mean(window, axis=0)], the mean of the rows of a window, is numpy's
    and is the parameter [np_mean].  The window size [T] is a positive
    number (5 by default). *)

(** [l[start:]], where a negative [start] counts from the end and a start
    before the first element is the first element. *)
Definition slice_from {A} (l : list A) (start : Z) : list A :=
  if (start <? 0)%Z then drop (Z.to_nat (Z.of_nat (length l) + start)) l
  else drop (Z.to_nat start) l.

(** Lines 121-124. *)
Definition smooth_window {Box} (boxes : list Box) (T : positive) (i : nat)
    : list Box :=
  if (length boxes <? i + Pos.to_nat T)%nat
  then slice_from boxes (Z.of_nat (length boxes) - Z.pos T)
  else slice boxes i (i + Pos.to_nat T).

Definition get_smoothened_boxes {Box} (np_mean : list Box -> Box)
    (boxes : list Box) (T : positive) : list Box :=
  foldl (fun boxes i => <[i := np_mean (smooth_window boxes T i)]> boxes)
        boxes (seq 0 (length boxes)).

(** *** The test of line 276

    What [swap_video] reads outside of its arguments: the providers
    [onnxruntime] lists, [torch.cuda.is_available()] and the environment. *)
Record Runtime : Type := {
  access_providers : list string;
  cuda_is_available : bool;
  environ : gmap string string
}.

(** [sub in s], on strings. *)
Fixpoint str_contains (sub s : string) : bool :=
  String.prefix sub s
  || match s with
     | EmptyString => false
     | String _ rest => str_contains sub rest
     end.

Definition use_cuda_strategy (rt : Runtime) : bool :=
  bool_decide ("CUDAExecutionProvider" ∈ access_providers rt)
  && cuda_is_available rt
  && negb (str_contains "cpu" (default "cpu" (environ rt !! "WUNJO_TORCH_DEVICE"))).

(** *** Notions the statements below use *)

(** The selection [face_detect_with_alignment_all] makes for one frame. *)
Definition all_selection (image_file : Path) : list (option Face) :=
  match get_faces self (imread image_file) with
  | [] => [None]
  | _ :: _ => Some <$> get_faces self (imread image_file)
  end.

(** The entry of [local_face_param] built for the face at index [i]. *)
Definition mk_param (st : TrackState) (i : nat) (face : Face) : Param :=
  let '(cx, cy) := bbox_center (bbox face) in
  {| is_center := bbox_contains (bbox face) cx cy;
     is_gender := bool_decide (face_gender st = gender face);
     is_embed := is_similar_face self (normed_embedding face)
                   (face_embedding_list st) (similar_coeff self);
     p_bbox := bbox face; p_gender := gender face;
     p_embed := normed_embedding face; p_id := i |}.

(** The test line 222 makes on the entry of a face. *)
Definition warm_test (st : TrackState) (face : Face) : bool :=
  accepts (mk_param st 0 face).

(** The faces the second loop collects. *)
Definition warm_selected (st : TrackState) (dets : list Face) : list Face :=
  if similarface self then List.filter (warm_test st) dets
  else take 1 (List.filter (warm_test st) dets).

(** The continuation rule in the words of the specification: the embedding
    is similar to an entry of the history, and the box contains the last
    tracked center or the gender is the last tracked gender. *)
Definition spec_continuation (st : TrackState) (face : Face) : Prop :=
  is_similar_face self (normed_embedding face) (face_embedding_list st)
    (similar_coeff self) = true
  /\ ((exists xc yc, x_center st = Some xc /\ y_center st = Some yc
                     /\ bbox_contains (bbox face) xc yc = true)
      \/ face_gender st = gender face).

(** The rule as a property of one step of the tracker from state [st]: the
    selection recorded for the frame holds exactly the detected faces that
    satisfy [spec_continuation]. *)
Definition selects_by_spec_continuation (st : TrackState) (n : nat)
    (image_file : Path) : Prop :=
  forall st' sel,
    crop_step n image_file st = Ok st' ->
    last (predictions st') = Some sel ->
    forall face, In face (get_faces self (imread image_file)) ->
                 (In (Some face) sel <-> spec_continuation st face).

(** What the swap loop returns as a frame, whatever the world. *)
Fixpoint swap_executor (tmp_frame : Frame) (dets : list (option Face))
    (source_face : Face) : Frame :=
  match dets with
  | [] => tmp_frame
  | None :: _ => tmp_frame
  | Some face :: rest =>
      swap_executor (face_swap_model_get self tmp_frame face source_face)
        rest source_face
  end.

(** The frame a worker saves, and the name it saves it under. *)
Definition job_output (args : Args) : Frame :=
  if filter_status self (a_frame args)
  then swap_executor (a_frame args) (a_face_det_result args) (a_source_face args)
  else a_frame args.

Definition job_filename (args : Args) : string := frame_filename (a_idx args).

(** The world after the workers have run the jobs one after the other. *)
Definition run_jobs (jobs : list Args) (w : World) : World :=
  foldl (fun w args => (process_frame args w).2) w jobs.

(** The faces of a selection that the swap loop reaches: those before the
    first [None]. *)
Fixpoint selected_faces (dets : list (option Face)) : list Face :=
  match dets with
  | Some face :: rest => face :: selected_faces rest
  | _ => []
  end.

(** The swap model applied for each face in turn, each time to the frame the
    previous call returned. *)
Definition swap_chain (frame : Frame) (faces : list Face) (source_face : Face)
    : Frame :=
  foldl (fun frame face => face_swap_model_get self frame face source_face)
        frame faces.

(** The tracker follows a face: a center is known and the embedding history
    is not empty. *)
Definition seeded (st : TrackState) : Prop :=
  is_Some (x_center st) /\ is_Some (y_center st) /\ face_embedding_list st <> [].

(** A selection made on the detections [dets]: [[None]], or at least one
    detected face (exactly one unless [similarface] is set). *)
Definition selection_of (dets : list Face) (sel : list (option Face)) : Prop :=
  sel = [None]
  \/ exists faces,
       faces <> [] /\ sel = Some <$> faces
       /\ (forall face, In face faces -> In face dets)
       /\ (similarface self = false -> length faces = 1%nat).

(** A box at least two units wide and two units high. *)
Definition regular_box (b : Q * Q * Q * Q) : Prop :=
  let '(x1, y1, x2, y2) := b in (x1 + 2 <= x2)%Q /\ (y1 + 2 <= y2)%Q.

(** The frame a strategy writes for an input frame and its selection. *)
Definition frame_output (frame : Frame) (dets : list (option Face))
    (source_face : Face) : Frame :=
  if filter_status self frame
  then swap_chain frame (selected_faces dets) source_face
  else frame.

(** The frames copied before and after the processed ones. *)
Definition head_frames (full_frame_files : list Path)
    (start_frame : option nat) : list Frame :=
  if truthy start_frame
  then imread <$> take (or_zero start_frame) full_frame_files
  else [].

Definition tail_frames (full_frame_files : list Path)
    (end_frame : option nat) : list Frame :=
  if truthy end_frame
  then imread <$> drop (or_zero end_frame) full_frame_files
  else [].

(** The errors of the arithmetic. *)
Definition arithmetic_error (e : exn) : Prop :=
  e = ZeroDivisionError \/ e = OverflowError \/ exists msg, e = ValueError msg.


End FaceSwap.

(** *** File names of the workers, with binary indices

    [frame_filename] on the index [N.to_nat idx], computed without going
    through unary numbers. *)
Definition format_04d_N (idx : N) : string :=
  let digits := NilEmpty.string_of_uint (N.to_uint idx) in
  String.concat "" (replicate (4 - String.length digits) "0") ++ digits.

Definition frame_filename_N (idx : N) : string :=
  "frame_" ++ format_04d_N idx ++ ".png".

(** [start], [start + 1], ... ([len] numbers). *)
Fixpoint iota (start : N) (len : nat) : list N :=
  match len with
  | O => []
  | S len => start :: iota (N.succ start) len
  end.

(** Every element is [<=] the next one. *)
Fixpoint sortedb (l : list string) : bool :=
  match l with
  | a :: (b :: _) as rest => String.leb a b && sortedb rest
  | _ => true
  end.

(** The indices 0 ... 10000 in the order in which the names
    [frame_0000.png] ... [frame_9999.png], [frame_10000.png] sort. *)
Definition index_order_10001 : list N :=
  iota 0 (N.to_nat 1001) ++ [10000%N] ++ iota 1001 (N.to_nat 8999).

Arguments Path : clear implicits.
Arguments VideoWriter : clear implicits.
Arguments World : clear implicits.
Arguments Args : clear implicits.

(** ** Concrete collaborators and inputs

    A small instance of the collaborators, on which the definitions above
    are run: an image carries its size, what the detector and the content
    filter answer on it, and the faces pasted into it so far. *)

Module Demo.

Record Img : Type := {
  img_id : nat;
  img_shape : Z * Z;
  img_faces : list Face;
  img_safe : bool;
  img_pasted : list Face
}.

Definition paste (frame : Img) (face source_face : Face) : Img :=
  {| img_id := img_id frame; img_shape := img_shape frame;
     img_faces := img_faces frame; img_safe := img_safe frame;
     img_pasted := img_pasted frame ++ [face] |}.

Definition dot (a b : Emb) : Q := foldr Qplus 0%Q (zip_with Qmult a b).

(** Similar to some entry of the history: inner product above [coeff]. *)
Definition similar (e : Emb) (history : list Emb) (coeff : Q) : bool :=
  existsb (fun h => Qltb coeff (dot e h)) history.

Definition coeff : Q := 95 # 100.

#[export] Instance img_image : Image Img := img_shape.

Definition swapper (similarface : bool) : FaceSwapDeepfake Img :=
  {| get_faces := img_faces; is_similar_face := similar;
     filter_status := img_safe; face_swap_model_get := paste;
     similarface := similarface; similar_coeff := coeff |}.

Definition empty_world : World Img :=
  {| disk := ∅; swap_calls := []; progress := 0 |}.

Definition mk_face (x1 y1 x2 y2 : Z) (g : Z) (e : Emb) : Face :=
  {| bbox := (inject_Z x1, inject_Z y1, inject_Z x2, inject_Z y2);
     gender := Some g; normed_embedding := e |}.

Definition img (i : nat) (safe : bool) (faces : list Face) : Img :=
  {| img_id := i; img_shape := (100, 100); img_faces := faces;
     img_safe := safe; img_pasted := [] |}.

Definition source : Face := mk_face 0 0 10 10 1 [0; 1]%Q.

(** Two faces of one identity (same embedding, same gender), both around
    the point (50, 50); a face of another gender far from it whose
    embedding is still similar; a face in the far corner; a face near the
    point (10, 10) that does not contain it. *)
Definition faceA : Face := mk_face 40 40 60 60 1 [1; 0]%Q.
Definition faceB : Face := mk_face 30 30 70 70 1 [1; 0]%Q.
Definition faceC : Face := mk_face 0 0 10 10 0 [1; 0]%Q.
Definition faceFar : Face := mk_face 80 80 90 90 1 [1; 0]%Q.
Definition faceNear : Face := mk_face 20 20 30 30 1 [1; 0]%Q.

(** A seeded tracker state: it follows [faceA], centered at (50, 50). *)
Definition warm_state : TrackState :=
  {| predictions := [[Some faceA]];
     face_embedding_list := [[1; 0]%Q];
     face_gender := Some 1;
     x_center := Some 50;
     y_center := Some 50;
     min_distance := fmul (fsqrt (float_of_Z 20000)) threshold |}.

(** The selector whose center falls on pixel (10, 10) of a 100 x 100 image. *)
Definition selector_10_10 : SquareFace :=
  {| sq_x := float_of_Z 10; sq_y := float_of_Z 10;
     canvasWidth := float_of_Z 100; canvasHeight := float_of_Z 100 |}.

(** [f"{i:05d}" + ext] *)
Definition name5 (i : nat) (ext : string) : string :=
  let d := NilEmpty.string_of_uint (N.to_uint (N.of_nat i)) in
  String.concat "" (replicate (5 - String.length d) "0") ++ d ++ ext.

(** A directory of [n] safe frames without faces, [00000.png] onwards. *)
Definition frames_dir (n : nat) : list (Path Img) :=
  map (fun i => (name5 i ".png", img i true [])) (seq 0 n).

Definition run_thread (order : list nat) (dir : list (Path Img))
    (sel : option SquareFace) (multiface : bool)
    (start_frame end_frame : option nat) : result (VideoWriter Img * World Img) :=
  swap_video_thread (swapper false)
    order dir source sel multiface 30 start_frame end_frame ".mp4" empty_world.

Definition run_cuda (dir : list (Path Img))
    (sel : option SquareFace) (multiface : bool)
    (start_frame end_frame : option nat) : result (VideoWriter Img * World Img) :=
  swap_video_cuda (swapper false)
    dir source sel multiface 30 start_frame end_frame ".mp4" empty_world.

(** The identifiers of the frames of the output video. *)
Definition frame_ids (r : result (VideoWriter Img * World Img)) : result (list nat) :=
  (fun r => img_id <$> written r.1) <$> r.

(** Inputs of the examples. *)
Definition frame_AB : Path Img := ("00001.png", img 1 true [faceA; faceB]).
Definition frame_C : Path Img := ("00001.png", img 1 true [faceC]).
Definition frame_far : Path Img := ("00000.png", img 0 true [faceFar]).
Definition frame_near : Path Img := ("00000.png", img 0 true [faceFar; faceNear]).
Definition frame_empty : Path Img := ("00000.png", img 0 true []).
Definition frame_unsafe : Path Img := ("00003.png", img 3 false [faceA]).

(** A directory with one [.jpg] and one [.png] frame. *)
Definition mixed_dir : list (Path Img) :=
  [("a.jpg", img 0 true []); ("b.png", img 1 true [])].

(** A frame without faces, then two frames whose only face is far from the
    selector. *)
Definition late_face_dir : list (Path Img) :=
  [("00000.png", img 0 true []); ("00001.png", img 1 true [faceFar]);
   ("00002.png", img 2 true [faceFar])].

Definition track (similarface : bool) (image_files : list (Path Img))
    (sel : option SquareFace) : result (list (list (option Face))) :=
  face_detect_with_alignment_crop (swapper similarface) image_files sel.

(** The budget of a 100 x 100 frame. *)
Definition budget_100 : float := fmul (fsqrt (float_of_Z 20000)) threshold.

(** A frame 100 high and 300 wide whose only face is centered on (73, 96),
    and the selector whose center falls on its pixel (10, 5): the face lies
    at the square root of 12250 from the center, and 12250 is [0.35 ^ 2]
    times the square of the diagonal. *)
Definition faceEdge : Face := mk_face 63 86 83 106 1 [1; 0]%Q.

Definition wide_frame : Path Img :=
  ("00000.png",
   {| img_id := 0; img_shape := (100, 300); img_faces := [faceEdge];
      img_safe := true; img_pasted := [] |}).

Definition selector_10_5 : SquareFace :=
  {| sq_x := float_of_Z 10; sq_y := float_of_Z 5;
     canvasWidth := float_of_Z 300; canvasHeight := float_of_Z 100 |}.

(** A selector at [x = 47.5] on a canvas 300 wide. *)
Definition selector_47_5 : SquareFace :=
  {| sq_x := fdiv (float_of_Z 95) (float_of_Z 2); sq_y := float_of_Z 10;
     canvasWidth := float_of_Z 300; canvasHeight := float_of_Z 100 |}.

End Demo.

(** * Properties *)

Section Properties.

Context {Frame : Type} `{Image Frame} (self : FaceSwapDeepfake Frame).

(** ** Small facts about the error monad and the loops *)

Lemma bind_Ok {A B} (f : A -> result B) (a : A) : (Ok a ≫= f) = f a.
Proof. reflexivity. Qed.

Lemma getitem_Ok {A} (l : list A) (i : nat) (a : A) :
  getitem l i = Ok a <-> l !! i = Some a.
Proof.
  unfold getitem. destruct (l !! i); split; intros E; congruence.
Qed.

Lemma lookup_In {A} (l : list A) (i : nat) (a : A) : l !! i = Some a -> In a l.
Proof. intros E. apply list_elem_of_In. by eapply list_elem_of_lookup_2. Qed.

Lemma face_detect_with_alignment_all_map (image_files : list (Path Frame)) :
  face_detect_with_alignment_all self image_files = all_selection self <$> image_files.
Proof.
  unfold face_detect_with_alignment_all.
  enough (G : forall acc,
    foldl (fun predictions image_file =>
             match get_faces self (imread image_file) with
             | [] => predictions ++ [[None]]
             | _ :: _ => predictions ++ [Some <$> get_faces self (imread image_file)]
             end) acc image_files = acc ++ (all_selection self <$> image_files)).
  { apply (G []). }
  induction image_files as [|p l IH]; intros acc; simpl.
  - by rewrite app_nil_r.
  - rewrite IH. unfold all_selection at 2.
    destruct (get_faces self (imread p)); by rewrite <- app_assoc.
Qed.

Lemma swap_faces_all (dets : list Face) (frame : Frame) (source_face : Face)
    (w : World Frame) :
  swap_faces self frame (Some <$> dets) source_face w
  = swap_all self frame dets source_face w.
Proof.
  unfold swap_all. revert frame w.
  induction dets as [|face dets IH]; intros frame w; simpl; [done|].
  apply IH.
Qed.

Lemma swap_all_calls (dets : list Face) (frame : Frame) (source_face : Face)
    (w : World Frame) :
  (swap_calls (swap_all self frame dets source_face w).2).*2
  = (swap_calls w).*2 ++ dets.
Proof.
  unfold swap_all. revert frame w.
  induction dets as [|face dets IH]; intros frame w; simpl.
  - by rewrite app_nil_r.
  - cbn [foldl].
    destruct (call_swap self frame face source_face w) as [frame' w'] eqn:E.
    rewrite IH. unfold call_swap in E. injection E as _ <-. simpl.
    rewrite fmap_app. simpl. by rewrite <- app_assoc.
Qed.

(** ** C6: the content gate *)

(** C6.  On a frame the content filter reports unsafe, neither video strategy
    nor the still-image path calls the swap model, none of them raises, and
    the frame is passed on as it is: the worker of the threaded strategy saves
    the frame itself under its file name, the sequential loop writes the frame
    itself to the video and goes on with the next frame, and the still-image
    path saves and returns the frame itself; in the threaded strategy the
    image read back from the worker's file ([job_output]) is the frame.  This
    holds for every [self] (options and collaborators), selection, selector
    and [multiface]. *)
Theorem unsafe_frame_passes_through (frame : Frame) :
  filter_status self frame = false ->
  (forall args w,
      a_frame args = frame ->
      process_frame self args w
      = (frame_filename (a_idx args),
         {| disk := <[frame_filename (a_idx args) := frame]> (disk w);
            swap_calls := swap_calls w;
            progress := S (progress w) |}))
  /\ (forall frame_files source_face i dets rest out w frame_file,
         frame_files !! i = Some frame_file ->
         imread frame_file = frame ->
         cuda_loop self frame_files source_face ((i, dets) :: rest) out w
         = cuda_loop self frame_files source_face rest (out_write frame out) w)
  /\ (forall source_face face_fields multiface w,
         swap_image self frame source_face face_fields multiface w
         = Ok (frame, imwrite save_file frame w)
         /\ swap_calls (imwrite save_file frame w) = swap_calls w)
  /\ (forall args, a_frame args = frame -> job_output self args = frame).
Proof.
  intros Hunsafe. split; [|split; [|split]].
  4:{ intros args <-. unfold job_output. by rewrite Hunsafe. }
  - intros args w <-. unfold process_frame. by rewrite Hunsafe.
  - intros frame_files source_face i dets rest out w frame_file Hi <-.
    simpl. apply getitem_Ok in Hi. rewrite Hi. simpl. by rewrite Hunsafe.
  - intros source_face face_fields multiface w. unfold swap_image.
    by rewrite Hunsafe.
Qed.

(** ** C7: no face detected *)

(** C7.  When the detector finds no face: the still-image path, which runs
    the detector once the gate has passed and the crop box is computed,
    raises [FaceNotDetectedError]; on the video path the tracker records the
    empty selection [[None]] for the frame, keeps its state, and goes on with
    the frames that follow, as does the all-faces detection; and the empty
    selection makes the worker swap nothing. *)
Theorem no_face_fatal_for_image_tolerated_in_video (frame : Frame) :
  get_faces self frame = [] ->
  (forall source_face face_fields multiface w center,
      filter_status self frame = true ->
      get_real_crop_box frame face_fields = Ok center ->
      swap_image self frame source_face face_fields multiface w
      = Raise (FaceNotDetectedError "Face is not detected in target image!"))
  /\ (forall n image_file rest st,
         imread image_file = frame ->
         crop_step self n image_file st = Ok (append_prediction [None] st)
         /\ crop_loop self n (image_file :: rest) st
            = crop_loop self (S n) rest (append_prediction [None] st))
  /\ (forall before image_file after,
         imread image_file = frame ->
         face_detect_with_alignment_all self (before ++ image_file :: after)
         = face_detect_with_alignment_all self before
           ++ [None] :: face_detect_with_alignment_all self after)
  /\ (forall tmp_frame rest source_face w,
         swap_faces self tmp_frame (None :: rest) source_face w = (tmp_frame, w)).
Proof.
  intros Hnone. repeat split.
  - intros source_face face_fields multiface w center Hsafe Hcrop.
    unfold swap_image. rewrite Hsafe, Hcrop. simpl.
    destruct center as [xc yc]. by rewrite Hnone.
  - subst frame. unfold crop_step. by rewrite Hnone.
  - subst frame. simpl. unfold crop_step. by rewrite Hnone.
  - intros before image_file after <-.
    rewrite !face_detect_with_alignment_all_map, fmap_app. simpl.
    unfold all_selection at 2. by rewrite Hnone.
Qed.

(** ** C9: [multiface] *)

(** C9.  With [multiface] the detection phase of the video pipeline is the
    all-faces detection: it never raises, gives one selection per frame, and
    for a frame with at least one detection the selection is the detector's
    whole list, in its order; nothing depends on the selector, in the
    detection phase or in either strategy as a whole; and on such a selection
    the swap loop calls the swap model once for each detected face. *)
Theorem multiface_selects_every_detection
    (frame_files : list (Path Frame)) (sel sel' : option SquareFace) :
  (exists results,
      detect_phase self true frame_files sel = Ok results
      /\ length results = length frame_files
      /\ forall i image_file,
           frame_files !! i = Some image_file ->
           get_faces self (imread image_file) <> [] ->
           results !! i = Some (Some <$> get_faces self (imread image_file)))
  /\ detect_phase self true frame_files sel = detect_phase self true frame_files sel'
  /\ (forall order dir source_face fps start_frame end_frame video_format w,
         swap_video_thread self order dir source_face sel true fps
           start_frame end_frame video_format w
         = swap_video_thread self order dir source_face sel' true fps
             start_frame end_frame video_format w)
  /\ (forall dir source_face fps start_frame end_frame video_format w,
         swap_video_cuda self dir source_face sel true fps
           start_frame end_frame video_format w
         = swap_video_cuda self dir source_face sel' true fps
             start_frame end_frame video_format w)
  /\ (forall tmp_frame dets source_face w,
         (swap_calls (swap_faces self tmp_frame (Some <$> dets) source_face w).2).*2
         = (swap_calls w).*2 ++ dets).
Proof.
  split; [|split; [|split; [|split]]].
  - exists (all_selection self <$> frame_files). simpl.
    rewrite face_detect_with_alignment_all_map. split; [done|].
    split; [by rewrite length_fmap|].
    intros i image_file Hi Hne. rewrite list_lookup_fmap, Hi. simpl.
    unfold all_selection. by destruct (get_faces self (imread image_file)).
  - reflexivity.
  - reflexivity.
  - reflexivity.
  - intros. rewrite swap_faces_all. apply swap_all_calls.
Qed.

(** ** C10: the still-image path with a selector *)

Lemma Qltb_true (a b : Q) : Qltb a b = true <-> (a < b)%Q.
Proof.
  unfold Qltb. rewrite negb_true_iff. split.
  - intros E. apply Qnot_le_lt. intros L. apply Qle_bool_iff in L. congruence.
  - intros L. destruct (Qle_bool b a) eqn:E; [|done].
    apply Qle_bool_iff in E. exfalso. exact (Qlt_not_le _ _ L E).
Qed.

Lemma Qltb_false (a b : Q) : Qltb a b = false <-> (b <= a)%Q.
Proof.
  unfold Qltb. rewrite negb_false_iff. apply Qle_bool_iff.
Qed.

Lemma min_index_from_spec (l pre : list Q) (best : nat) (bestv : Q) :
  pre !! best = Some bestv ->
  (forall u, In u pre -> (bestv <= u)%Q) ->
  exists v, (pre ++ l) !! min_index_from (length pre) best bestv l = Some v
            /\ forall u, In u (pre ++ l) -> (v <= u)%Q.
Proof.
  revert pre best bestv.
  induction l as [|d l IH]; intros pre best bestv Hbest Hmin; simpl.
  - exists bestv. rewrite app_nil_r. auto.
  - replace (pre ++ d :: l) with ((pre ++ [d]) ++ l) by (by rewrite <- app_assoc).
    replace (S (length pre)) with (length (pre ++ [d]))
      by (rewrite length_app; simpl; lia).
    destruct (Qltb d bestv) eqn:E.
    + apply Qltb_true in E. apply IH.
      * rewrite lookup_app_r by lia. by rewrite Nat.sub_diag.
      * intros u [Hu| [<-|[]]]%in_app_or; [|apply Qle_refl].
        apply Qlt_le_weak. eapply Qlt_le_trans; eauto.
    + apply Qltb_false in E. apply IH.
      * rewrite lookup_app_l; [done|]. by eapply lookup_lt_Some.
      * intros u [Hu| [<-|[]]]%in_app_or; auto.
Qed.

Lemma min_index_spec (distances : list Q) :
  distances <> [] ->
  exists k v, min_index distances = Some k /\ distances !! k = Some v
              /\ forall u, In u distances -> (v <= u)%Q.
Proof.
  destruct distances as [|d l]; [done|]. intros _. simpl.
  destruct (min_index_from_spec l [d] 0 d) as (v & Hv & Hmin); [done | |].
  - intros u [<-|[]]. apply Qle_refl.
  - exists (min_index_from 1 0 d l), v. auto.
Qed.

Lemma image_scan_spec (xc yc : Z) (dets : list Face) (acc : list Q) :
  match image_scan xc yc dets acc with
  | inl face => In face dets /\ bbox_contains (bbox face) xc yc = true
  | inr distances =>
      distances = acc ++ ((fun face => manhattan_distance face xc yc) <$> dets)
      /\ forall face, In face dets -> bbox_contains (bbox face) xc yc = false
  end.
Proof.
  revert acc. induction dets as [|face dets IH]; intros acc; simpl.
  - rewrite app_nil_r. split; [done|]. intros ? [].
  - destruct (bbox_contains (bbox face) xc yc) eqn:E; [auto|].
    specialize (IH (acc ++ [manhattan_distance face xc yc])).
    destruct (image_scan xc yc dets _) as [found|distances].
    + destruct IH. auto.
    + destruct IH as [-> Hno]. split; [by rewrite <- app_assoc|].
      intros g [<-|Hg]; auto.
Qed.

(** The index [min] returns is the first one that holds a least element. *)
Lemma min_index_from_first (l pre : list Q) (best : nat) (bestv : Q) :
  pre !! best = Some bestv ->
  (forall u, In u pre -> (bestv <= u)%Q) ->
  (forall j u, (j < best)%nat -> pre !! j = Some u -> (bestv < u)%Q) ->
  exists v, (pre ++ l) !! min_index_from (length pre) best bestv l = Some v
            /\ (forall u, In u (pre ++ l) -> (v <= u)%Q)
            /\ forall j u, (j < min_index_from (length pre) best bestv l)%nat ->
                           (pre ++ l) !! j = Some u -> (v < u)%Q.
Proof.
  revert pre best bestv.
  induction l as [|d l IH]; intros pre best bestv Hbest Hmin Hfirst; simpl.
  - exists bestv. rewrite app_nil_r. auto.
  - replace (pre ++ d :: l) with ((pre ++ [d]) ++ l) by (by rewrite <- app_assoc).
    replace (S (length pre)) with (length (pre ++ [d]))
      by (rewrite length_app; simpl; lia).
    destruct (Qltb d bestv) eqn:E.
    + apply Qltb_true in E. apply IH.
      * rewrite lookup_app_r by lia. by rewrite Nat.sub_diag.
      * intros u [Hu| [<-|[]]]%in_app_or; [|apply Qle_refl].
        apply Qlt_le_weak. eapply Qlt_le_trans; eauto.
      * intros j u Hj Hu. rewrite lookup_app_l in Hu by done.
        eapply Qlt_le_trans; [exact E|]. apply Hmin. by eapply lookup_In.
    + apply Qltb_false in E.
      assert (Hlt : (best < length pre)%nat) by (by eapply lookup_lt_Some).
      apply IH.
      * by rewrite lookup_app_l.
      * intros u [Hu| [<-|[]]]%in_app_or; auto.
      * intros j u Hj Hu. rewrite lookup_app_l in Hu by lia. eauto.
Qed.

Lemma min_index_first (distances : list Q) :
  distances <> [] ->
  exists k v, min_index distances = Some k /\ distances !! k = Some v
              /\ (forall u, In u distances -> (v <= u)%Q)
              /\ forall j u, (j < k)%nat -> distances !! j = Some u -> (v < u)%Q.
Proof.
  destruct distances as [|d l]; [done|]. intros _. simpl.
  destruct (min_index_from_first l [d] 0 d) as (v & Hv & Hmin & Hfirst); [done | | |].
  - intros u [<-|[]]. apply Qle_refl.
  - intros j u Hj. lia.
  - exists (min_index_from 1 0 d l), v. auto.
Qed.

(** The first face whose box contains the center, as [image_scan] finds it. *)
Lemma image_scan_first (xc yc : Z) (dets : list Face) (acc : list Q) (face : Face) :
  image_scan xc yc dets acc = inl face ->
  exists i, dets !! i = Some face
            /\ bbox_contains (bbox face) xc yc = true
            /\ forall j g, (j < i)%nat -> dets !! j = Some g ->
                           bbox_contains (bbox g) xc yc = false.
Proof.
  revert acc. induction dets as [|d dets IH]; intros acc; simpl; [done|].
  destruct (bbox_contains (bbox d) xc yc) eqn:E.
  - intros [= <-]. exists 0%nat. repeat split; [done|]. intros j g Hj. lia.
  - intros Hscan. destruct (IH _ Hscan) as (i & Hi & Hc & Hbefore).
    exists (S i). repeat split; [done..|].
    intros [|j] g Hj Hg; simpl in Hg; [by injection Hg as <-|].
    apply (Hbefore j); [lia|done].
Qed.

(** What the scan of the detections ends in: the first face whose box
    contains the center, or else the first face at the least distance. *)
Lemma selector_pick (xc yc : Z) (dets : list Face) :
  dets <> [] ->
  exists i face,
    dets !! i = Some face
    /\ match image_scan xc yc dets [] with
       | inl found => found = face
       | inr distances =>
           (0 <? length distances)%nat = true
           /\ min_index distances = Some i
       end
    /\ ((exists g, In g dets /\ bbox_contains (bbox g) xc yc = true) ->
        bbox_contains (bbox face) xc yc = true
        /\ forall j g, (j < i)%nat -> dets !! j = Some g ->
                       bbox_contains (bbox g) xc yc = false)
    /\ ((forall g, In g dets -> bbox_contains (bbox g) xc yc = false) ->
        (forall g, In g dets ->
                   (manhattan_distance face xc yc <= manhattan_distance g xc yc)%Q)
        /\ forall j g, (j < i)%nat -> dets !! j = Some g ->
                       (manhattan_distance face xc yc < manhattan_distance g xc yc)%Q).
Proof.
  intros Hne.
  pose proof (image_scan_spec xc yc dets []) as Hscan.
  destruct (image_scan xc yc dets []) as [found|distances] eqn:Escan.
  - destruct (image_scan_first _ _ _ _ _ Escan) as (i & Hi & Hc & Hbefore).
    exists i, found. split; [done|]. split; [done|]. split; [done|].
    intros Hno. destruct Hscan as [Hin _]. rewrite (Hno _ Hin) in Hc. discriminate.
  - destruct Hscan as [-> Hno]. simpl app.
    set (dist := fun face : Face => manhattan_distance face xc yc) in *.
    destruct (min_index_first (dist <$> dets)) as (k & v & Hk & Hv & Hmin & Hfirst).
    { by destruct dets. }
    rewrite list_lookup_fmap in Hv.
    destruct (dets !! k) as [face|] eqn:Eface; [|done]. injection Hv as <-.
    exists k, face. split; [done|]. split; [|split].
    + split; [|done]. rewrite length_fmap. destruct dets; [done|]. reflexivity.
    + intros (g & Hg & Hc). rewrite (Hno g Hg) in Hc. discriminate.
    + intros _. split.
      * intros g Hg. apply Hmin. apply in_map_iff. eauto.
      * intros j g Hj Hg. apply (Hfirst j); [done|].
        by rewrite list_lookup_fmap, Hg.
Qed.


Lemma bbox_contains_true (b : Q * Q * Q * Q) (xc yc : Z) :
  bbox_contains b xc yc = true
  <-> let '(x1, y1, x2, y2) := b in
      (x1 <= inject_Z xc /\ inject_Z xc <= x2
       /\ y1 <= inject_Z yc /\ inject_Z yc <= y2)%Q.
Proof.
  destruct b as [[[x1 y1] x2] y2]. unfold bbox_contains.
  rewrite !andb_true_iff, !Qle_bool_iff. tauto.
Qed.

(** C10.  On the still-image path with a selector (whose center the crop box
    gives as [(xc, yc)]) and [multiface] false, whenever the content filter
    reports safe and the detector returns at least one face, the call
    returns and exactly one swap is performed, on the target frame, and its
    result is saved and returned: on the first detected face whose box
    contains the center if there is one, and otherwise on the first detected
    face whose distance [|(x1 + x2) / 2 - xc| + |(y1 + y2) / 2 - yc|] to the
    center is the least among all detected faces, however large it is.  So
    the call never raises the crop-field error. *)
Theorem image_selector_always_swaps (target_frame : Frame) (source_face : Face)
    (sf : SquareFace) (xc yc : Z) (w : World Frame) :
  let dets := get_faces self target_frame in
  let inside := fun face : Face =>
    let '(x1, y1, x2, y2) := bbox face in
    (x1 <= inject_Z xc /\ inject_Z xc <= x2
     /\ y1 <= inject_Z yc /\ inject_Z yc <= y2)%Q in
  let distance := fun face : Face =>
    let '(x1, y1, x2, y2) := bbox face in
    (Qabs ((x1 + x2) / 2 - inject_Z xc) + Qabs ((y1 + y2) / 2 - inject_Z yc))%Q in
  filter_status self target_frame = true ->
  get_real_crop_box target_frame (Some sf) = Ok (Some xc, Some yc) ->
  dets <> [] ->
  (exists i face,
      dets !! i = Some face
      /\ swap_image self target_frame source_face (Some sf) false w
         = Ok (face_swap_model_get self target_frame face source_face,
               {| disk := <[save_file :=
                              face_swap_model_get self target_frame face source_face]>
                            (disk w);
                  swap_calls := swap_calls w ++ [(target_frame, face)];
                  progress := progress w |})
      /\ ((exists g, In g dets /\ inside g) ->
          inside face
          /\ forall j g, (j < i)%nat -> dets !! j = Some g -> ~ inside g)
      /\ ((forall g, In g dets -> ~ inside g) ->
          (forall g, In g dets -> (distance face <= distance g)%Q)
          /\ forall j g, (j < i)%nat -> dets !! j = Some g ->
                         (distance face < distance g)%Q))
  /\ swap_image self target_frame source_face (Some sf) false w <> Raise crop_field_error.
Proof.
  intros dets inside distance Hsafe Hcrop Hdets.
  assert (Hin : forall g, bbox_contains (bbox g) xc yc = true <-> inside g).
  { intros g. rewrite bbox_contains_true. unfold inside.
    by destruct (bbox g) as [[[x1 y1] x2] y2]. }
  assert (Hdist : forall g, manhattan_distance g xc yc = distance g).
  { intros g. unfold manhattan_distance, distance.
    by destruct (bbox g) as [[[x1 y1] x2] y2]. }
  destruct (selector_pick xc yc dets Hdets) as (i & face & Hi & Hscan & Hfound & Hnear).
  assert (Hswap : swap_image self target_frame source_face (Some sf) false w
                  = Ok (face_swap_model_get self target_frame face source_face,
                        {| disk := <[save_file :=
                                       face_swap_model_get self target_frame face
                                         source_face]> (disk w);
                           swap_calls := swap_calls w ++ [(target_frame, face)];
                           progress := progress w |})).
  { unfold swap_image. rewrite Hsafe, Hcrop, bind_Ok. fold dets.
    destruct dets as [|face0 dets0] eqn:Edets; [done|]. rewrite <- Edets in *.
    cbv iota.
    destruct (image_scan xc yc dets []) as [found|distances].
    - by subst found.
    - destruct Hscan as [-> ->]. apply getitem_Ok in Hi. by rewrite Hi. }
  split; [|rewrite Hswap; discriminate].
  exists i, face. split; [done|]. split; [exact Hswap|]. split.
  - intros (g & Hg & Hc). destruct Hfound as [Hc' Hbefore].
    { exists g. split; [done|]. by apply Hin. }
    split; [by apply Hin|]. intros j g' Hj Hg' Hc''.
    apply Hin in Hc''. by rewrite (Hbefore j g' Hj Hg') in Hc''.
  - intros Hno. destruct Hnear as [Hmin Hfirst].
    { intros g Hg. destruct (bbox_contains (bbox g) xc yc) eqn:E; [|done].
      exfalso. apply (Hno g Hg). by apply Hin. }
    split.
    + intros g Hg. rewrite <- !Hdist. by apply Hmin.
    + intros j g Hj Hg. rewrite <- !Hdist. by apply (Hfirst j).
Qed.

(** ** C8: the nearest-face fallback of the cold start *)

(** [<] on floats is a strict order. *)
Lemma lex_compare_lt_trans (e1 e2 e3 : Z) (m1 m2 m3 : positive) :
  match (e1 ?= e2)%Z with Lt => Lt | Gt => Gt | Eq => Pos.compare_cont Eq m1 m2 end = Lt ->
  match (e2 ?= e3)%Z with Lt => Lt | Gt => Gt | Eq => Pos.compare_cont Eq m2 m3 end = Lt ->
  match (e1 ?= e3)%Z with Lt => Lt | Gt => Gt | Eq => Pos.compare_cont Eq m1 m3 end = Lt.
Proof.
  change (Pos.compare_cont Eq) with Pos.compare.
  destruct (Z.compare_spec e1 e2), (Z.compare_spec e2 e3), (Z.compare_spec e1 e3);
    try discriminate; try lia; try done.
  rewrite !Pos.compare_lt_iff. lia.
Qed.

Lemma lex_compare_gt_trans (e1 e2 e3 : Z) (m1 m2 m3 : positive) :
  match (e1 ?= e2)%Z with
  | Lt => Gt | Gt => Lt | Eq => CompOpp (Pos.compare_cont Eq m1 m2)
  end = Lt ->
  match (e2 ?= e3)%Z with
  | Lt => Gt | Gt => Lt | Eq => CompOpp (Pos.compare_cont Eq m2 m3)
  end = Lt ->
  match (e1 ?= e3)%Z with
  | Lt => Gt | Gt => Lt | Eq => CompOpp (Pos.compare_cont Eq m1 m3)
  end = Lt.
Proof.
  change (Pos.compare_cont Eq) with Pos.compare.
  destruct (Z.compare_spec e1 e2), (Z.compare_spec e2 e3), (Z.compare_spec e1 e3);
    try discriminate; try lia; try done.
  rewrite <- !Pos.compare_antisym, !Pos.compare_lt_iff. lia.
Qed.

Lemma flt_irrefl (a : float) : flt a a = false.
Proof.
  unfold flt, SFltb, SFcompare. destruct a as [[]|[]| |[] m e]; try done.
  all: change (Pos.compare_cont Eq) with Pos.compare.
  all: by rewrite Z.compare_refl, Pos.compare_refl.
Qed.

Lemma flt_trans (a b c : float) :
  flt a b = true -> flt b c = true -> flt a c = true.
Proof.
  unfold flt, SFltb, SFcompare.
  destruct a as [sa|sa| |sa ma ea], b as [sb|sb| |sb mb eb], c as [sc|sc| |sc mc ec];
    try done;
    try (destruct sa, sb, sc; done);
    try (destruct sa, sb; done);
    try (destruct sb, sc; done);
    try (destruct sa, sc; done).
  all: destruct sa, sb, sc; try done.
  - intros H1 H2.
    destruct (match (ea ?= eb)%Z with
              | Lt => Gt | Gt => Lt | Eq => CompOpp (Pos.compare_cont Eq ma mb)
              end) eqn:E1; try done.
    destruct (match (eb ?= ec)%Z with
              | Lt => Gt | Gt => Lt | Eq => CompOpp (Pos.compare_cont Eq mb mc)
              end) eqn:E2; try done.
    by rewrite (lex_compare_gt_trans _ _ _ _ _ _ E1 E2).
  - intros H1 H2.
    destruct (match (ea ?= eb)%Z with
              | Lt => Lt | Gt => Gt | Eq => Pos.compare_cont Eq ma mb
              end) eqn:E1; try done.
    destruct (match (eb ?= ec)%Z with
              | Lt => Lt | Gt => Gt | Eq => Pos.compare_cont Eq mb mc
              end) eqn:E2; try done.
    by rewrite (lex_compare_lt_trans _ _ _ _ _ _ E1 E2).
Qed.

Lemma flt_asym (a b : float) : flt a b = true -> flt b a = false.
Proof.
  intros Hab. destruct (flt b a) eqn:E; [|done].
  pose proof (flt_trans _ _ _ Hab E) as Haa. by rewrite flt_irrefl in Haa.
Qed.

(** [math.sqrt] on an [int], when it returns: the square root of the float
    nearest to the integer. *)
Lemma math_sqrt_Ok (z : Z) (d : float) :
  math_sqrt z = Ok d -> d = fsqrt (float_of_Z z).
Proof.
  unfold math_sqrt, float_of_int.
  destruct (float_of_Z z) as [s|s| |s m e]; rewrite ?bind_Ok; try done.
  all: destruct (flt _ (float_of_Z 0)); [done|]; by intros [= <-].
Qed.

(** The loop of lines 189-194, when no distance overflows: it ends with the
    budget it started from and no face, or with a detected face strictly
    below that budget which no detected face is strictly below. *)
Lemma closest_loop_spec (center : Z * Z) (dets : list Face)
    (md0 : float) (cf0 : option Face) (md : float) (cf : option Face) :
  let dist := fun face => euclidean_distance center (get_center face) in
  closest_loop center dets md0 cf0 = Ok (md, cf) ->
  (md = md0 /\ cf = cf0
   /\ forall g d, In g dets -> dist g = Ok d -> flt d md0 = false)
  \/ (exists face, In face dets /\ cf = Some face /\ dist face = Ok md
                   /\ flt md md0 = true
                   /\ forall g d, In g dets -> dist g = Ok d -> flt d md = false).
Proof.
  intros dist. revert md0 cf0.
  induction dets as [|h dets IH]; intros md0 cf0; cbn [closest_loop].
  - intros [= <- <-]. left. repeat split. intros g d [].
  - change (euclidean_distance center (get_center h)) with (dist h).
    destruct (dist h) as [dh|e] eqn:Eh; [|done]. rewrite bind_Ok.
    destruct (flt dh md0) eqn:E; intros Hloop.
    + right.
      destruct (IH _ _ Hloop) as [(-> & -> & Hge) | (face & Hin & -> & Hd & Hlt & Hge)].
      * exists h. split; [by left|]. split; [done|]. split; [done|]. split; [done|].
        intros g d [<-|Hg] Hd.
        -- rewrite Eh in Hd. injection Hd as <-. apply flt_irrefl.
        -- by apply (Hge g).
      * exists face. split; [by right|]. split; [done|]. split; [done|].
        split; [by eapply flt_trans|].
        intros g d [<-|Hg] Hd'.
        -- rewrite Eh in Hd'. injection Hd' as <-. by apply flt_asym.
        -- by apply (Hge g).
    + destruct (IH _ _ Hloop) as [(-> & -> & Hge) | (face & Hin & -> & Hd & Hlt & Hge)].
      * left. repeat split. intros g d [<-|Hg] Hd.
        -- rewrite Eh in Hd. by injection Hd as <-.
        -- by apply (Hge g).
      * right. exists face. split; [by right|]. repeat split; try done.
        intros g d [<-|Hg] Hd'.
        -- rewrite Eh in Hd'. injection Hd' as <-.
           destruct (flt dh md) eqn:E'; [|done].
           by rewrite (flt_trans _ _ _ E' Hlt) in E.
        -- by apply (Hge g).
Qed.

(** The loop returns when every distance can be computed. *)
Lemma closest_loop_returns (center : Z * Z) (dets : list Face)
    (md0 : float) (cf0 : option Face) :
  (forall g, In g dets -> exists d, euclidean_distance center (get_center g) = Ok d) ->
  exists md cf, closest_loop center dets md0 cf0 = Ok (md, cf).
Proof.
  revert md0 cf0. induction dets as [|h dets IH]; intros md0 cf0 Hd; cbn [closest_loop].
  - eauto.
  - destruct (Hd h) as [d ->]; [by left|]. rewrite bind_Ok.
    destruct (flt d md0); apply IH; intros g Hg; apply Hd; by right.
Qed.

Lemma find_none_iff (xc yc : Z) (dets : list Face) :
  (forall face, In face dets -> bbox_contains (bbox face) xc yc = false) ->
  List.find (fun face => bbox_contains (bbox face) xc yc) dets = None.
Proof.
  intros Hno. destruct (List.find _ dets) as [face|] eqn:E; [|done].
  apply find_some in E as [Hin Hc]. rewrite (Hno _ Hin) in Hc. discriminate.
Qed.

Lemma set_min_distance_same (st : TrackState) :
  set_min_distance (min_distance st) st = st.
Proof. by destruct st. Qed.

(** C8.  Cold start with a selector center [(xc, yc)], on a frame none of
    whose detected boxes contains the center.  Distances and the budget are
    the floats the code computes: the distance of a face is the square root
    of the float nearest to [dx ^ 2 + dy ^ 2], where [(dx, dy)] runs from the
    selector center to the integer center of its box; the budget is the
    square root of the float nearest to [h ^ 2 + w ^ 2], times [0.35]; and
    [flt] is the comparison [<] of line 192.
    - On frame index 0, where the state is the initial one and the budget is
      that of this first frame: whenever the step returns, either no face
      is adopted, the state is left as it was, and no detected face has a
      distance strictly below the budget; or the adopted face is a detected
      face whose distance is strictly below the budget and which no
      detected face is strictly nearer than, the state being seeded from
      it.  The step returns when the distance of every detected face can be
      computed.
    - On any later frame index the step leaves the whole state as it was: no
      face is adopted, whatever its distance. *)
Theorem nearest_fallback_first_frame_within_budget
    (image_file : Path Frame) (xc yc : Z) (budget : float) :
  let dets := get_faces self (imread image_file) in
  let inside := fun face : Face =>
    let '(x1, y1, x2, y2) := bbox face in
    (x1 <= inject_Z xc /\ inject_Z xc <= x2
     /\ y1 <= inject_Z yc /\ inject_Z yc <= y2)%Q in
  let dist := fun face : Face =>
    let '(x1, y1, x2, y2) := bbox face in
    math_sqrt ((xc - py_int ((x1 + x2) / 2)) ^ 2
               + (yc - py_int ((y1 + y2) / 2)) ^ 2) in
  get_min_distance (imread image_file) = Ok budget ->
  dets <> [] ->
  (forall face, In face dets -> ~ inside face) ->
  budget
  = fmul (fsqrt (float_of_Z ((shape (imread image_file)).1 ^ 2
                             + (shape (imread image_file)).2 ^ 2)))
         (fdiv (float_of_Z 35) (float_of_Z 100))
  /\ (forall st',
         crop_step self 0 image_file (crop_init (Some xc) (Some yc) budget) = Ok st' ->
         (st' = crop_init (Some xc) (Some yc) budget
          /\ forall g d, In g dets -> dist g = Ok d -> flt d budget = false)
         \/ (exists face d,
                In face dets
                /\ dist face = Ok d
                /\ flt d budget = true
                /\ (forall g d', In g dets -> dist g = Ok d' -> flt d' d = false)
                /\ st' = adopt face (crop_init (Some xc) (Some yc) d)))
  /\ ((forall g, In g dets -> exists d, dist g = Ok d) ->
      exists st',
        crop_step self 0 image_file (crop_init (Some xc) (Some yc) budget) = Ok st')
  /\ (forall n st,
         n <> 0%nat ->
         x_center st = Some xc -> y_center st = Some yc ->
         face_embedding_list st = [] ->
         crop_step self n image_file st = Ok st).
Proof.
  intros dets inside dist Hbudget Hne Hout.
  assert (Hno : forall face, In face dets -> bbox_contains (bbox face) xc yc = false).
  { intros face Hin. destruct (bbox_contains (bbox face) xc yc) eqn:E; [|done].
    exfalso. apply (Hout face Hin). apply bbox_contains_true in E.
    unfold inside. by destruct (bbox face) as [[[x1 y1] x2] y2]. }
  assert (Hdist : forall face,
             euclidean_distance (xc, yc) (get_center face) = dist face).
  { intros face. unfold dist, euclidean_distance, get_center, bbox_center.
    by destruct (bbox face) as [[[x1 y1] x2] y2]. }
  split; [|split; [|split]].
  - unfold get_min_distance in Hbudget.
    destruct (shape (imread image_file)) as [h w']. cbn [fst snd].
    destruct (math_sqrt (h ^ 2 + w' ^ 2)) as [diagonal|e] eqn:Ed; [|done].
    apply math_sqrt_Ok in Ed. rewrite bind_Ok in Hbudget. injection Hbudget as <-.
    by rewrite Ed.
  - intros st'. unfold crop_step, crop_dispatch. fold dets.
    destruct dets as [|face0 dets0] eqn:Edets; [done|]. simpl.
    unfold cold_selector_step. rewrite (find_none_iff _ _ _ Hno). simpl Nat.eqb.
    cbv iota. cbn [min_distance crop_init].
    destruct (closest_loop (xc, yc) (face0 :: dets0) budget None) as [[md cf]|e] eqn:El;
      [|done].
    rewrite bind_Ok.
    pose proof (closest_loop_spec _ _ _ _ _ _ El) as Hloop. cbv zeta in Hloop.
    destruct Hloop as [(-> & -> & Hge) | (face & Hin & -> & Hd & Hlt & Hge)].
    + intros [= <-]. left. split; [done|].
      intros g d Hg Hgd. apply (Hge g); [done|]. by rewrite Hdist.
    + intros [= <-]. right. exists face, md. split; [done|].
      split; [by rewrite <- Hdist|]. split; [done|]. split; [|done].
      intros g d Hg Hgd. apply (Hge g); [done|]. by rewrite Hdist.
  - intros Hall. unfold crop_step, crop_dispatch. fold dets.
    destruct dets as [|face0 dets0] eqn:Edets; [done|]. simpl.
    unfold cold_selector_step. rewrite (find_none_iff _ _ _ Hno). simpl Nat.eqb.
    cbv iota. cbn [min_distance crop_init].
    destruct (closest_loop_returns (xc, yc) (face0 :: dets0) budget None)
      as (md & cf & ->).
    { intros g Hg. rewrite Hdist. by apply Hall. }
    rewrite bind_Ok. destruct cf; eauto.
  - intros n st Hn Hx Hy Hemb. unfold crop_step, crop_dispatch. fold dets.
    destruct dets as [|face0 dets0] eqn:Edets; [done|].
    rewrite Hx, Hy, Hemb. unfold cold_selector_step.
    rewrite (find_none_iff _ _ _ Hno).
    destruct n; [done|]. reflexivity.
Qed.

(** ** The acceptance rule of warm tracking *)

Lemma accepts_mk_param (st : TrackState) (i : nat) (face : Face) :
  accepts (mk_param self st i face) = warm_test self st face.
Proof.
  unfold warm_test, accepts, mk_param. by destruct (bbox_center (bbox face)).
Qed.

Lemma p_id_mk_param (st : TrackState) (i : nat) (face : Face) :
  p_id (mk_param self st i face) = i.
Proof. unfold mk_param. by destruct (bbox_center (bbox face)). Qed.

Lemma drop_head_lookup {A} (l : list A) (k : nat) (a : A) (rest : list A) :
  drop k l = a :: rest -> l !! k = Some a /\ drop (S k) l = rest.
Proof.
  intros Hdrop. split.
  - rewrite <- (Nat.add_0_r k), <- lookup_drop, Hdrop. done.
  - replace (S k) with (k + 1)%nat by lia.
    rewrite <- (drop_drop l 1 k), Hdrop. done.
Qed.

Lemma warm_scan_step (st : TrackState) (xc yc : option Z) (acc : list Param)
    (i : nat) (face : Face) :
  exists xc' yc',
    warm_scan_body self st (xc, yc, acc) (i, face)
    = (xc', yc', acc ++ [mk_param self st i face]).
Proof.
  unfold warm_scan_body, mk_param. destruct (bbox_center (bbox face)) as [cx cy].
  exists (Some cx), (Some cy).
  by destruct (bbox_contains (bbox face) cx cy).
Qed.

Lemma warm_scan_params (st : TrackState) (dets : list Face) :
  (warm_scan self st dets).2 = imap (mk_param self st) dets.
Proof.
  unfold warm_scan, enumerate.
  enough (G : forall k xc yc acc,
    (foldl (warm_scan_body self st) (xc, yc, acc)
           (imap (fun i a => ((k + i)%nat, a)) dets)).2
    = acc ++ imap (fun i => mk_param self st (k + i)) dets).
  { apply (G 0%nat). }
  induction dets as [|face dets IH]; intros k xc yc acc.
  - simpl. by rewrite app_nil_r.
  - rewrite !imap_cons. cbn [foldl].
    destruct (warm_scan_step st xc yc acc (k + 0) face) as (xc' & yc' & ->).
    rewrite (imap_ext _ (fun i a => ((S k + i)%nat, a)))
      by (intros; simpl; f_equal; lia).
    rewrite IH. rewrite <- app_assoc. simpl. do 2 f_equal.
    apply imap_ext. intros. simpl. f_equal. lia.
Qed.

Lemma warm_select_spec (st0 : TrackState) (dets l : list Face) (k : nat)
    (st : TrackState) (lp : list Face) :
  drop k dets = l ->
  exists st2,
    warm_select self dets (imap (fun i => mk_param self st0 (k + i)) l) st lp
    = Ok (st2, lp ++ warm_selected self st0 l)
    /\ predictions st2 = predictions st.
Proof.
  revert k st lp. unfold warm_selected.
  destruct (similarface self) eqn:Esim.
  - induction l as [|face l IH]; intros k st lp Hdrop.
    + exists st. simpl. by rewrite app_nil_r.
    + rewrite imap_cons. cbn [warm_select]. rewrite accepts_mk_param, Esim.
      pose proof (drop_head_lookup _ _ _ _ Hdrop) as [Hk Hdrop'].
      rewrite (imap_ext _ (fun i => mk_param self st0 (S k + i)))
        by (intros; simpl; f_equal; lia).
      cbn [List.filter]. destruct (warm_test self st0 face) eqn:Etest.
      * rewrite p_id_mk_param, Nat.add_0_r.
        apply getitem_Ok in Hk. rewrite Hk, bind_Ok.
        destruct (bbox_center (p_bbox (mk_param self st0 k face))) as [cx cy].
        cbn [negb]. cbv iota.
        match goal with
        | |- context [warm_select _ _ _ ?s ?q] =>
            destruct (IH (S k) s q Hdrop') as (st2 & E & Hp)
        end.
        exists st2. split; [|exact Hp].
        etransitivity; [exact E|]. by rewrite <- app_assoc.
      * apply (IH (S k) st lp Hdrop').
  - induction l as [|face l IH]; intros k st lp Hdrop.
    + exists st. simpl. by rewrite app_nil_r.
    + rewrite imap_cons. cbn [warm_select]. rewrite accepts_mk_param, Esim.
      pose proof (drop_head_lookup _ _ _ _ Hdrop) as [Hk Hdrop'].
      rewrite (imap_ext _ (fun i => mk_param self st0 (S k + i)))
        by (intros; simpl; f_equal; lia).
      cbn [List.filter]. destruct (warm_test self st0 face) eqn:Etest.
      * rewrite p_id_mk_param, Nat.add_0_r.
        apply getitem_Ok in Hk. rewrite Hk, bind_Ok.
        destruct (bbox_center (p_bbox (mk_param self st0 k face))) as [cx cy].
        cbn [negb]. cbv iota.
        eexists. split; reflexivity.
      * apply (IH (S k) st lp Hdrop').
Qed.

(** What the warm branch does to a frame with detections: it never raises,
    and appends exactly one selection. *)
Lemma warm_step_spec (dets : list Face) (st : TrackState) :
  exists st',
    warm_step self dets st = Ok st'
    /\ predictions st' = predictions st
         ++ [match warm_selected self st dets with
             | [] => [None]
             | _ :: _ => Some <$> warm_selected self st dets
             end].
Proof.
  unfold warm_step. pose proof (warm_scan_params st dets) as Hp.
  destruct (warm_scan self st dets) as [[xc yc] params]. simpl in Hp. subst params.
  edestruct (warm_select_spec st dets dets 0) as (st2 & E & Hpred); [done|].
  rewrite E. simpl. destruct (warm_selected self st dets) as [|a sel]; simpl.
  - eexists. split; [reflexivity|]. simpl. by rewrite Hpred.
  - eexists. split; [reflexivity|]. simpl. by rewrite Hpred.
Qed.

(** Truncation stays within one unit of its argument, so a box at least two
    units wide and high contains its own integer center: on such a box the
    test of the first loop is true whatever the tracked center is, and the
    test of line 222 is the similarity test alone. *)
Lemma py_int_bounds (q : Q) :
  (q - 1 < inject_Z (py_int q) /\ inject_Z (py_int q) < q + 1)%Q.
Proof.
  destruct q as [n d]. unfold py_int, Qlt, Qminus, Qplus, Qopp, inject_Z. simpl.
  pose proof (Z.quot_rem' n (Z.pos d)) as E.
  assert (Z.abs (Z.rem n (Z.pos d)) < Z.pos d) by (apply Z.rem_bound_abs; lia).
  lia.
Qed.

Lemma bbox_contains_own_center (x1 y1 x2 y2 : Q) :
  (x1 + 2 <= x2)%Q -> (y1 + 2 <= y2)%Q ->
  bbox_contains (x1, y1, x2, y2) (bbox_center (x1, y1, x2, y2)).1
                (bbox_center (x1, y1, x2, y2)).2 = true.
Proof.
  intros Hx Hy. unfold bbox_contains, bbox_center. simpl.
  set (mx := ((x1 + x2) / 2)%Q). set (my := ((y1 + y2) / 2)%Q).
  assert (Hmx : (mx * 2 == x1 + x2)%Q) by (unfold mx; field).
  assert (Hmy : (my * 2 == y1 + y2)%Q) by (unfold my; field).
  pose proof (py_int_bounds mx) as [Hx1 Hx2].
  pose proof (py_int_bounds my) as [Hy1 Hy2].
  clearbody mx my.
  rewrite !andb_true_iff, !Qle_bool_iff. repeat split; lra.
Qed.

Lemma warm_test_is_similarity (st : TrackState) (face : Face) (x1 y1 x2 y2 : Q) :
  bbox face = (x1, y1, x2, y2) ->
  (x1 + 2 <= x2)%Q -> (y1 + 2 <= y2)%Q ->
  warm_test self st face
  = is_similar_face self (normed_embedding face) (face_embedding_list st)
      (similar_coeff self).
Proof.
  intros Hb Hx Hy. unfold warm_test, accepts, mk_param.
  pose proof (bbox_contains_own_center x1 y1 x2 y2 Hx Hy) as Hc.
  rewrite <- Hb in Hc. destruct (bbox_center (bbox face)) as [cx cy].
  simpl in *. by rewrite Hc.
Qed.

Lemma warm_test_similar (st : TrackState) (face : Face) :
  warm_test self st face = true ->
  is_similar_face self (normed_embedding face) (face_embedding_list st)
    (similar_coeff self) = true.
Proof.
  unfold warm_test, accepts, mk_param. destruct (bbox_center (bbox face)). simpl.
  by intros [_ E]%andb_true_iff.
Qed.

Lemma warm_test_same_gender (st : TrackState) (face : Face) :
  is_similar_face self (normed_embedding face) (face_embedding_list st)
    (similar_coeff self) = true ->
  face_gender st = gender face ->
  warm_test self st face = true.
Proof.
  intros Hsim Hg. unfold warm_test, accepts, mk_param.
  destruct (bbox_center (bbox face)). simpl.
  rewrite Hsim, (bool_decide_eq_true_2 _ Hg). by rewrite orb_true_r.
Qed.

Lemma In_take {A} (x : A) (n : nat) (l : list A) : In x (take n l) -> In x l.
Proof.
  rewrite <- !list_elem_of_In, elem_of_take. intros (i & Hi & _).
  by eapply list_elem_of_lookup_2.
Qed.

Lemma warm_selected_In (st : TrackState) (dets : list Face) (face : Face) :
  In face (warm_selected self st dets) -> In face dets /\ warm_test self st face = true.
Proof.
  unfold warm_selected. destruct (similarface self); intros Hin.
  - by apply filter_In.
  - apply In_take in Hin. by apply filter_In.
Qed.

Lemma filter_first_match {A} (f : A -> bool) (l : list A) (i : nat) (a : A) :
  l !! i = Some a -> f a = true ->
  (forall j b, (j < i)%nat -> l !! j = Some b -> f b = false) ->
  exists rest, List.filter f l = a :: rest.
Proof.
  intros Hi Ha Hbefore. rewrite <- (take_drop_middle l i a Hi), List.filter_app.
  assert (E : List.filter f (take i l) = []).
  { destruct (List.filter f (take i l)) as [|b bs] eqn:Eb; [done|]. exfalso.
    assert (Hb : In b (List.filter f (take i l))) by (rewrite Eb; by left).
    apply filter_In in Hb as [Hb Hfb].
    apply list_elem_of_In, elem_of_take in Hb as (j & Hj & Hlt).
    rewrite (Hbefore j b Hlt Hj) in Hfb. discriminate. }
  rewrite E. simpl. rewrite Ha. eauto.
Qed.


(** ** The threaded strategy, job by job *)

Lemma swap_faces_fst (dets : list (option Face)) (frame : Frame)
    (source_face : Face) (w : World Frame) :
  (swap_faces self frame dets source_face w).1
  = swap_executor self frame dets source_face.
Proof.
  revert frame w. induction dets as [|[face|] dets IH]; intros frame w; simpl;
    [done | apply IH | done].
Qed.

Lemma swap_faces_disk (dets : list (option Face)) (frame : Frame)
    (source_face : Face) (w : World Frame) :
  disk (swap_faces self frame dets source_face w).2 = disk w.
Proof.
  revert frame w. induction dets as [|[face|] dets IH]; intros frame w; simpl;
    [done | by rewrite IH | done].
Qed.

Lemma process_frame_fst (args : Args Frame) (w : World Frame) :
  (process_frame self args w).1 = job_filename args.
Proof.
  unfold process_frame.
  by destruct (if filter_status self (a_frame args) then _ else _).
Qed.

Lemma process_frame_disk (args : Args Frame) (w : World Frame) :
  disk (process_frame self args w).2
  = <[job_filename args := job_output self args]> (disk w).
Proof.
  unfold process_frame, job_output, job_filename.
  destruct (filter_status self (a_frame args)).
  - pose proof (swap_faces_fst (a_face_det_result args) (a_frame args)
                  (a_source_face args) w) as Hf.
    pose proof (swap_faces_disk (a_face_det_result args) (a_frame args)
                  (a_source_face args) w) as Hd.
    destruct (swap_faces self (a_frame args) _ _ w) as [frame' w'].
    simpl in *. by rewrite Hf, Hd.
  - done.
Qed.

Lemma run_jobs_snoc (jobs : list (Args Frame)) (args : Args Frame) (w : World Frame) :
  run_jobs self (jobs ++ [args]) w = (process_frame self args (run_jobs self jobs w)).2.
Proof. unfold run_jobs. by rewrite foldl_snoc. Qed.

Lemma run_jobs_last (jobs : list (Args Frame)) (args : Args Frame) (w : World Frame) :
  disk (run_jobs self (jobs ++ [args]) w) !! job_filename args
  = Some (job_output self args).
Proof. by rewrite run_jobs_snoc, process_frame_disk, lookup_insert_eq. Qed.

Lemma run_jobs_saved (jobs : list (Args Frame)) (w : World Frame) (args : Args Frame) :
  In args jobs -> is_Some (disk (run_jobs self jobs w) !! job_filename args).
Proof.
  induction jobs as [|a jobs IH] using rev_ind; [done|].
  intros Hin. rewrite run_jobs_snoc, process_frame_disk.
  apply lookup_insert_is_Some.
  destruct (decide (job_filename a = job_filename args)) as [|Hne]; [by left|].
  right. split; [done|]. apply IH.
  apply in_app_or in Hin as [Hin|[->|[]]]; done.
Qed.

Lemma omap_id_Some {A} (l : list A) :
  omap (fun future => future) (Some <$> l) = l.
Proof. induction l as [|a l IH]; [done|]. cbn. by f_equal. Qed.

Lemma executor_map_in_order (jobs : list (Args Frame)) (w : World Frame) :
  executor_map self (seq 0 (length jobs)) jobs w
  = (job_filename <$> jobs, run_jobs self jobs w).
Proof.
  unfold executor_map.
  enough (G : forall k, (k <= length jobs)%nat ->
    foldl (fun '(futures, w) k =>
             match jobs !! k with
             | Some args =>
                 let '(filename, w) := process_frame self args w in
                 (<[k := Some filename]> futures, w)
             | None => (futures, w)
             end)
          (replicate (length jobs) None, w) (seq 0 k)
    = ((Some <$> (job_filename <$> take k jobs)) ++ replicate (length jobs - k) None,
       run_jobs self (take k jobs) w)).
  { rewrite (G (length jobs)) by lia. rewrite Nat.sub_diag, firstn_all. simpl.
    rewrite app_nil_r. f_equal. apply omap_id_Some. }
  induction k as [|k IH]; intros Hk.
  - simpl. by rewrite Nat.sub_0_r.
  - rewrite seq_S, foldl_snoc, IH by lia. simpl.
    destruct (jobs !! k) as [args|] eqn:Ek.
    2:{ apply lookup_ge_None in Ek. lia. }
    rewrite (take_S_r _ _ _ Ek), run_jobs_snoc.
    pose proof (process_frame_fst args (run_jobs self (take k jobs) w)) as Hfst.
    destruct (process_frame self args (run_jobs self (take k jobs) w))
      as [filename w'].
    simpl in *. subst filename. f_equal.
    rewrite insert_app_r_alt by (rewrite !length_fmap, length_take; lia).
    rewrite !length_fmap, length_take.
    replace (k - k `min` length jobs)%nat with 0%nat by lia.
    replace (length jobs - k)%nat with (S (length jobs - S k)) by lia.
    simpl. rewrite !fmap_app. simpl. by rewrite <- app_assoc.
Qed.

Lemma mapM_Ok {A B} (f : A -> result B) (g : A -> B) (l : list A) :
  (forall x, In x l -> f x = Ok (g x)) -> mapM f l = Ok (g <$> l).
Proof.
  induction l as [|x l IH]; intros Hf; simpl; [done|].
  rewrite (Hf x) by (by left). simpl.
  rewrite IH by (intros y Hy; apply Hf; by right). done.
Qed.

Lemma build_jobs_spec (frame_files : list (Path Frame))
    (face_det_results : list (list (option Face))) (source_face : Face) :
  length face_det_results = length frame_files ->
  exists jobs,
    build_jobs frame_files face_det_results source_face = Ok jobs
    /\ job_filename <$> jobs = frame_filename <$> seq 0 (length frame_files)
    /\ forall i frame_file face_det_result,
         frame_files !! i = Some frame_file ->
         face_det_results !! i = Some face_det_result ->
         jobs !! i = Some {| a_frame := imread frame_file;
                             a_face_det_result := face_det_result;
                             a_source_face := source_face; a_idx := i |}.
Proof.
  intros Hlen. unfold build_jobs.
  destruct frame_files as [|p0 files'] eqn:Efiles.
  { exists []. repeat split. intros i ? ? Hi. done. }
  rewrite <- Efiles in *. clear Efiles files'.
  set (g := fun i =>
         {| a_frame := imread (default p0 (frame_files !! i));
            a_face_det_result := default [] (face_det_results !! i);
            a_source_face := source_face; a_idx := i |}).
  exists (g <$> seq 0 (length frame_files)). split; [|split].
  - apply mapM_Ok. intros i Hi. apply list_elem_of_In, elem_of_seq in Hi.
    destruct (lookup_lt_is_Some_2 frame_files i) as [p Hp]; [lia|].
    destruct (lookup_lt_is_Some_2 face_det_results i) as [d Hd]; [lia|].
    unfold getitem, g. rewrite Hp, Hd. done.
  - rewrite <- list_fmap_compose. done.
  - intros i p d Hp Hd. rewrite list_lookup_fmap.
    rewrite lookup_seq_lt by (by eapply lookup_lt_Some). simpl.
    unfold g. by rewrite Hp, Hd.
Qed.

Lemma write_processed_spec (names : list string) (w : World Frame)
    (out : VideoWriter Frame) :
  (forall name, In name names -> is_Some (disk w !! name)) ->
  exists frames,
    write_processed names w out
    = Ok {| fourcc := fourcc out; vw_fps := vw_fps out; frame_size := frame_size out;
            written := written out ++ frames |}
    /\ forall i name, names !! i = Some name -> frames !! i = disk w !! name.
Proof.
  revert out. induction names as [|name names IH]; intros out Hsaved.
  - exists []. simpl. rewrite app_nil_r. by destruct out.
  - destruct (Hsaved name) as [frame Hframe]; [by left|].
    destruct (IH (out_write frame out)) as (frames & Hw & Hframes).
    { intros n Hn. apply Hsaved. by right. }
    exists (frame :: frames). simpl. rewrite Hframe, Hw. split.
    + simpl. by rewrite <- app_assoc.
    + intros [|i] n Hn; simpl in *; [by injection Hn as <-|]. by apply Hframes.
Qed.

(** ** The order of the workers' file names *)

Lemma frame_filename_N_nat (idx : N) :
  frame_filename (N.to_nat idx) = frame_filename_N idx.
Proof. unfold frame_filename, format_04d. by rewrite N2Nat.id. Qed.

Lemma iota_seq (len : nat) (start : N) :
  N.to_nat <$> iota start len = seq (N.to_nat start) len.
Proof.
  revert start. induction len as [|len IH]; intros start; simpl; [done|].
  by rewrite IH, N2Nat.inj_succ.
Qed.

Lemma sortedb_Sorted (l : list string) : sortedb l = true -> Sorted String.le l.
Proof.
  induction l as [|a [|b l] IH]; intros Hs.
  - constructor.
  - repeat constructor.
  - simpl in Hs. apply andb_true_iff in Hs as [Hab Hs].
    constructor; [by apply IH|]. constructor. unfold String.le. by rewrite Hab.
Qed.

Lemma index_order_10001_sorted :
  sortedb (frame_filename_N <$> index_order_10001) = true.
Proof. vm_compute. reflexivity. Qed.

Lemma index_order_10001_perm :
  seq 0 (S (N.to_nat 10000)) ≡ₚ N.to_nat <$> index_order_10001.
Proof.
  unfold index_order_10001. rewrite !fmap_app, !iota_seq.
  change (N.to_nat <$> [10000%N]) with [N.to_nat 10000].
  replace (S (N.to_nat 10000)) with (N.to_nat 1001 + S (N.to_nat 8999))%nat by lia.
  rewrite seq_app, seq_S.
  replace (0 + N.to_nat 1001 + N.to_nat 8999)%nat with (N.to_nat 10000) by lia.
  replace (N.to_nat 0) with 0%nat by done.
  replace (0 + N.to_nat 1001)%nat with (N.to_nat 1001) by done.
  apply Permutation_app_head, Permutation_app_comm.
Qed.

(** Sorting the names of 10001 workers puts [frame_10000.png] at position
    1001. *)
Lemma sorted_names_10001 :
  sorted_names (frame_filename <$> seq 0 (S (N.to_nat 10000)))
  = frame_filename_N <$> index_order_10001.
Proof.
  apply (Sorted_unique String.le).
  - apply Sorted_merge_sort. apply _.
  - apply sortedb_Sorted, index_order_10001_sorted.
  - unfold sorted_names. rewrite merge_sort_Permutation, index_order_10001_perm.
    rewrite <- list_fmap_compose.
    rewrite (list_fmap_ext (frame_filename ∘ N.to_nat) frame_filename_N); [done|].
    intros i k _. apply frame_filename_N_nat.
Qed.

Lemma length_iota (len : nat) (start : N) : length (iota start len) = len.
Proof. revert start. induction len; intros; simpl; auto. Qed.

Lemma sorted_names_10001_at_1001 :
  (frame_filename_N <$> index_order_10001) !! N.to_nat 1001
  = Some (frame_filename (N.to_nat 10000)).
Proof.
  rewrite list_lookup_fmap. unfold index_order_10001.
  change ([10000%N] ++ iota 1001 (N.to_nat 8999))
    with (10000%N :: iota 1001 (N.to_nat 8999)).
  rewrite list_lookup_middle by (by rewrite length_iota).
  simpl. by rewrite frame_filename_N_nat.
Qed.

Lemma select_range_None (frame_files : list (Path Frame)) :
  select_range frame_files None None = frame_files.
Proof. reflexivity. Qed.

Lemma write_head_None (full_frame_files : list (Path Frame)) (out : VideoWriter Frame) :
  write_head full_frame_files None out = out.
Proof. reflexivity. Qed.

Lemma write_tail_None (full_frame_files : list (Path Frame)) (out : VideoWriter Frame) :
  write_tail full_frame_files None out = out.
Proof. reflexivity. Qed.

Lemma job_filename_idx (frame : Frame) (dets : list (option Face))
    (source_face : Face) (idx : nat) :
  frame_filename idx
  = job_filename {| a_frame := frame; a_face_det_result := dets;
                    a_source_face := source_face; a_idx := idx |}.
Proof. reflexivity. Qed.

Lemma sorted_names_elem_of (name : string) (l : list string) :
  name ∈ sorted_names l <-> name ∈ l.
Proof. unfold sorted_names. by rewrite merge_sort_Permutation. Qed.

(** The threaded strategy with no frame range given and the workers
    completing in the order of the frames: when the detection phase gives one
    selection per frame the run succeeds, and the video holds, in the sorted
    order of the workers' file names, what the workers saved. *)
Lemma thread_run_in_order (dir : list (Path Frame)) (source_face : Face)
    (sel : option SquareFace) (multiface : bool) (fps : Q) (video_format : string)
    (w : World Frame) (face_det_results : list (list (option Face))) (cc : string)
    (n : nat) (sorted : list string) :
  let frame_files :=
    sorted_paths (List.filter (fun p => endswith (basename p) ".jpg"
                                        || endswith (basename p) ".png") dir) in
  length frame_files = S n ->
  video_fourcc video_format = Ok cc ->
  detect_phase self multiface frame_files sel = Ok face_det_results ->
  length face_det_results = length frame_files ->
  sorted_names (frame_filename <$> seq 0 (S n)) = sorted ->
  exists jobs frames size,
    swap_video_thread self (seq 0 (S n)) dir source_face sel multiface
      fps None None video_format w
    = Ok ({| fourcc := cc; vw_fps := fps; frame_size := size; written := frames |},
          run_jobs self jobs w)
    /\ build_jobs frame_files face_det_results source_face = Ok jobs
    /\ length jobs = S n
    /\ forall i name,
         sorted !! i = Some name ->
         frames !! i = disk (run_jobs self jobs w) !! name.
Proof.
  intros frame_files Hlen Hcc Hdet Hdl Hsorted.
  destruct (lookup_lt_is_Some_2 frame_files 0) as [p0 Hp0]; [lia|].
  destruct (build_jobs_spec frame_files face_det_results source_face Hdl)
    as (jobs & Hjobs & Hnames & Hjob).
  assert (Hjl : length jobs = S n).
  { rewrite <- (length_fmap job_filename), Hnames, length_fmap, length_seq.
    exact Hlen. }
  destruct (write_processed_spec sorted (run_jobs self jobs w)
              (@Build_VideoWriter Frame cc fps
                 ((shape (imread p0)).2, (shape (imread p0)).1) []))
    as (frames & Hw & Hframes).
  { intros name Hin. rewrite <- Hsorted in Hin.
    apply list_elem_of_In in Hin.
    apply (proj1 (sorted_names_elem_of _ _)) in Hin.
    rewrite <- Hlen, <- Hnames in Hin.
    apply list_elem_of_fmap in Hin as (args & -> & Hargs).
    apply run_jobs_saved. apply list_elem_of_In. exact Hargs. }
  exists jobs, frames, ((shape (imread p0)).2, (shape (imread p0)).1).
  split; [|split; [exact Hjobs|split; [exact Hjl|exact Hframes]]].
  unfold swap_video_thread. fold frame_files.
  rewrite select_range_None.
  rewrite (proj2 (getitem_Ok _ _ _) Hp0), bind_Ok.
  rewrite (surjective_pairing (shape (imread p0))).
  rewrite Hcc, bind_Ok, Hdet, bind_Ok, Hjobs, bind_Ok.
  rewrite <- Hjl at 1. rewrite executor_map_in_order.
  rewrite Hnames, Hlen, Hsorted, write_head_None.
  cbn [fst snd]. rewrite Hw, bind_Ok, write_tail_None. reflexivity.
Qed.

(** In such a run, the position at which the name of the last worker sorts
    holds what the last worker saved, the output of the last frame. *)
Lemma thread_last_frame_at_sorted_position (dir : list (Path Frame))
    (source_face : Face) (sel : option SquareFace) (multiface : bool) (fps : Q)
    (video_format : string) (w : World Frame)
    (face_det_results : list (list (option Face))) (cc : string)
    (n i : nat) (sorted : list string) :
  let frame_files :=
    sorted_paths (List.filter (fun p => endswith (basename p) ".jpg"
                                        || endswith (basename p) ".png") dir) in
  length frame_files = S n ->
  video_fourcc video_format = Ok cc ->
  detect_phase self multiface frame_files sel = Ok face_det_results ->
  length face_det_results = length frame_files ->
  sorted_names (frame_filename <$> seq 0 (S n)) = sorted ->
  sorted !! i = Some (frame_filename n) ->
  exists out w' frame_file face_det_result,
    swap_video_thread self (seq 0 (S n)) dir source_face sel multiface
      fps None None video_format w = Ok (out, w')
    /\ frame_files !! n = Some frame_file
    /\ face_det_results !! n = Some face_det_result
    /\ written out !! i
       = Some (job_output self {| a_frame := imread frame_file;
                                  a_face_det_result := face_det_result;
                                  a_source_face := source_face;
                                  a_idx := n |}).
Proof.
  intros frame_files Hlen Hcc Hdet Hdl Hsorted Hi.
  destruct (thread_run_in_order dir source_face sel multiface fps video_format w
              face_det_results cc n sorted Hlen Hcc Hdet Hdl Hsorted)
    as (jobs & frames & size & Hrun & Hjobs & Hjl & Hframes).
  fold frame_files in Hjobs.
  destruct (build_jobs_spec frame_files face_det_results source_face Hdl)
    as (jobs' & Hjobs' & _ & Hjob).
  rewrite Hjobs in Hjobs'. injection Hjobs' as <-.
  destruct (lookup_lt_is_Some_2 frame_files n) as [p Hp]; [lia|].
  destruct (lookup_lt_is_Some_2 face_det_results n) as [d Hd]; [lia|].
  pose proof (Hjob _ _ _ Hp Hd) as Hlast.
  eexists _, _, p, d. split; [exact Hrun|]. split; [exact Hp|]. split; [exact Hd|].
  unfold written. rewrite (Hframes _ _ Hi).
  assert (Ejobs : jobs = take n jobs
                         ++ [{| a_frame := imread p; a_face_det_result := d;
                                a_source_face := source_face; a_idx := n |}]).
  { rewrite <- (take_S_r _ _ _ Hlast). symmetry. apply firstn_all2. lia. }
  rewrite Ejobs at 1.
  rewrite (job_filename_idx (imread p) d source_face).
  apply run_jobs_last.
Qed.

(** ** File name suffixes *)

Lemma string_length_app (s t : string) :
  String.length (s ++ t) = (String.length s + String.length t)%nat.
Proof.
  induction s as [|c s IH]; [reflexivity|].
  change (S (String.length (s ++ t)) = S (String.length s + String.length t)).
  by rewrite IH.
Qed.

Lemma string_app_assoc (s t u : string) :
  ((s ++ t) ++ u = s ++ t ++ u)%string.
Proof.
  induction s as [|c s IH]; [reflexivity|].
  change (String c ((s ++ t) ++ u) = String c (s ++ t ++ u)). by rewrite IH.
Qed.

Lemma substring_app_skip (s t : string) (n : nat) :
  substring (String.length s) n (s ++ t) = substring 0 n t.
Proof. induction s as [|c s IH]; [reflexivity|exact IH]. Qed.

Lemma substring_all (t : string) : substring 0 (String.length t) t = t.
Proof. induction t as [|c t IH]; simpl; [done|by rewrite IH]. Qed.

Lemma endswith_app (s suffix : string) : endswith (s ++ suffix) suffix = true.
Proof.
  unfold endswith. rewrite string_length_app.
  replace (String.length s + String.length suffix - String.length suffix)%nat
    with (String.length s) by lia.
  rewrite substring_app_skip, substring_all, String.eqb_refl, andb_true_r.
  apply Nat.leb_le. lia.
Qed.

Lemma filter_all {A} (f : A -> bool) (l : list A) :
  (forall x, In x l -> f x = true) -> List.filter f l = l.
Proof.
  induction l as [|a l IH]; intros Hall; simpl; [done|].
  rewrite (Hall a) by (by left). rewrite IH; [done|].
  intros x Hx. apply Hall. by right.
Qed.

End Properties.

(** * Further properties of the code *)

Section Further.

Context {Frame : Type} `{Image Frame} (self : FaceSwapDeepfake Frame).

(** ** [face_detect_with_alignment_from_source_frame] and [swap_image] *)

Lemma float_of_int_error (z : Z) (e : exn) :
  float_of_int z = Raise e -> arithmetic_error e.
Proof.
  unfold float_of_int. destruct (float_of_Z z); intros [= <-]. right. by left.
Qed.

Lemma truediv_error (x y : float) (e : exn) :
  truediv x y = Raise e -> arithmetic_error e.
Proof. unfold truediv. destruct y; intros [= <-]. by left. Qed.

Lemma int_of_float_error (x : float) (e : exn) :
  int_of_float x = Raise e -> arithmetic_error e.
Proof.
  unfold int_of_float. destruct x; intros [= <-]; right; [by left|right; eauto].
Qed.

(** [get_real_crop_box] gives no center without a selector, and with one
    both coordinates or an error of the arithmetic. *)
Lemma crop_box_cases (frame : Frame) (squareFace : option SquareFace) :
  match get_real_crop_box frame squareFace with
  | Ok (None, None) => squareFace = None
  | Ok (Some _, Some _) => exists sf, squareFace = Some sf
  | Ok _ => False
  | Raise e => (exists sf, squareFace = Some sf) /\ arithmetic_error e
  end.
Proof.
  unfold get_real_crop_box. destruct squareFace as [sf|]; [|done].
  destruct (shape frame) as [h w']. cbv zeta.
  destruct (float_of_int w') as [fw|e] eqn:Ew;
    [rewrite bind_Ok|split; [eauto|by eapply float_of_int_error]].
  destruct (truediv fw (canvasWidth sf)) as [sx|e] eqn:Esx;
    [rewrite bind_Ok|split; [eauto|by eapply truediv_error]].
  destruct (float_of_int h) as [fh|e] eqn:Eh;
    [rewrite bind_Ok|split; [eauto|by eapply float_of_int_error]].
  destruct (truediv fh (canvasHeight sf)) as [sy|e] eqn:Esy;
    [rewrite bind_Ok|split; [eauto|by eapply truediv_error]].
  set (center_x := fdiv (fadd (fmul (sq_x sf) sx) _) _).
  set (center_y := fdiv (fadd (fmul (sq_y sf) sy) _) _).
  destruct (int_of_float center_x) as [cx|e] eqn:Ecx;
    [rewrite bind_Ok|split; [eauto|by eapply int_of_float_error]].
  destruct (int_of_float center_y) as [cy|e] eqn:Ecy;
    [rewrite bind_Ok|split; [eauto|by eapply int_of_float_error]].
  eauto.
Qed.



(** ** What [swap_image] leaves behind *)

Lemma swap_all_chain (dets : list Face) (frame : Frame) (source_face : Face)
    (w : World Frame) :
  swap_all self frame dets source_face w
  = (swap_chain self frame dets source_face,
     {| disk := disk w;
        swap_calls := swap_calls w
                      ++ imap (fun i face =>
                                 (swap_chain self frame (take i dets) source_face, face))
                              dets;
        progress := progress w |}).
Proof.
  unfold swap_all, swap_chain. revert frame w.
  induction dets as [|face dets IH]; intros frame w.
  - simpl. rewrite app_nil_r. by destruct w.
  - cbn [foldl]. unfold call_swap at 2. rewrite IH. simpl. f_equal. f_equal.
    by rewrite <- app_assoc.
Qed.




(** ** The swap loop of the video strategies *)

Lemma swap_faces_selected (dets : list (option Face)) (frame : Frame)
    (source_face : Face) (w : World Frame) :
  swap_faces self frame dets source_face w
  = swap_all self frame (selected_faces dets) source_face w.
Proof.
  unfold swap_all. revert frame w.
  induction dets as [|[face|] dets IH]; intros frame w; simpl; [done| |done].
  apply IH.
Qed.


(** ** The tracker, frame after frame *)

Lemma mk_param_fields (st : TrackState) (i : nat) (face : Face) :
  p_embed (mk_param self st i face) = normed_embedding face
  /\ p_gender (mk_param self st i face) = gender face
  /\ p_bbox (mk_param self st i face) = bbox face.
Proof. unfold mk_param. by destruct (bbox_center (bbox face)). Qed.

Lemma last_cons_cons {A} (a b : A) (l : list A) : last (a :: b :: l) = last (b :: l).
Proof. reflexivity. Qed.

(** The second loop of the warm branch, with the state it leaves. *)
Lemma warm_select_state (st0 : TrackState) (dets l : list Face) (k : nat)
    (st : TrackState) (lp : list Face) :
  drop k dets = l ->
  exists st2,
    warm_select self dets (imap (fun i => mk_param self st0 (k + i)) l) st lp
    = Ok (st2, lp ++ warm_selected self st0 l)
    /\ predictions st2 = predictions st
    /\ face_embedding_list st2
       = face_embedding_list st ++ (normed_embedding <$> warm_selected self st0 l)
    /\ face_gender st2
       = from_option gender (face_gender st) (last (warm_selected self st0 l))
    /\ min_distance st2 = min_distance st
    /\ (is_Some (x_center st) -> is_Some (x_center st2))
    /\ (is_Some (y_center st) -> is_Some (y_center st2)).
Proof.
  revert k st lp. unfold warm_selected.
  destruct (similarface self) eqn:Esim.
  - induction l as [|face l IH]; intros k st lp Hdrop.
    + exists st. simpl. rewrite !app_nil_r. by repeat split.
    + rewrite imap_cons. cbn [warm_select]. rewrite accepts_mk_param, Esim.
      pose proof (drop_head_lookup _ _ _ _ Hdrop) as [Hk Hdrop'].
      rewrite (imap_ext _ (fun i => mk_param self st0 (S k + i)))
        by (intros; simpl; f_equal; lia).
      cbn [List.filter]. destruct (warm_test self st0 face) eqn:Etest.
      * rewrite p_id_mk_param, Nat.add_0_r.
        apply getitem_Ok in Hk. rewrite Hk, bind_Ok.
        destruct (mk_param_fields st0 k face) as (-> & -> & ->).
        destruct (bbox_center (bbox face)) as [cx cy].
        cbn [negb]. cbv iota.
        match goal with
        | |- context [warm_select _ _ _ ?s ?q] =>
            destruct (IH (S k) s q Hdrop')
              as (st2 & E & Hp & Hemb & Hg & Hmd & Hx & Hy)
        end.
        exists st2. split; [|split; [exact Hp|split; [|split; [|split; [exact Hmd|]]]]].
        -- etransitivity; [exact E|]. by rewrite <- app_assoc.
        -- rewrite Hemb. simpl. by rewrite <- app_assoc.
        -- rewrite Hg. cbn [face_gender].
           destruct (List.filter (warm_test self st0) l) as [|b l']; [done|].
           rewrite last_cons_cons.
           destruct (last (b :: l')) eqn:El; [done|]. by apply last_None in El.
        -- split; intros _; [apply Hx|apply Hy]; by eexists.
      * apply (IH (S k) st lp Hdrop').
  - induction l as [|face l IH]; intros k st lp Hdrop.
    + exists st. simpl. rewrite !app_nil_r. by repeat split.
    + rewrite imap_cons. cbn [warm_select]. rewrite accepts_mk_param, Esim.
      pose proof (drop_head_lookup _ _ _ _ Hdrop) as [Hk Hdrop'].
      rewrite (imap_ext _ (fun i => mk_param self st0 (S k + i)))
        by (intros; simpl; f_equal; lia).
      cbn [List.filter]. destruct (warm_test self st0 face) eqn:Etest.
      * rewrite p_id_mk_param, Nat.add_0_r.
        apply getitem_Ok in Hk. rewrite Hk, bind_Ok.
        destruct (mk_param_fields st0 k face) as (-> & -> & ->).
        destruct (bbox_center (bbox face)) as [cx cy].
        cbn [negb]. cbv iota.
        eexists. split; [reflexivity|]. simpl. by repeat split.
      * apply (IH (S k) st lp Hdrop').
Qed.

(** The warm branch on a frame with detections: the selection it records
    and the state it leaves. *)
Lemma warm_step_state (dets : list Face) (st : TrackState) :
  dets <> [] ->
  exists st',
    warm_step self dets st = Ok st'
    /\ predictions st' = predictions st
         ++ [match warm_selected self st dets with
             | [] => [None]
             | _ :: _ => Some <$> warm_selected self st dets
             end]
    /\ face_embedding_list st'
       = face_embedding_list st ++ (normed_embedding <$> warm_selected self st dets)
    /\ face_gender st'
       = from_option gender (face_gender st) (last (warm_selected self st dets))
    /\ min_distance st' = min_distance st
    /\ is_Some (x_center st') /\ is_Some (y_center st').
Proof.
  intros Hne. unfold warm_step. pose proof (warm_scan_params self st dets) as Hp.
  assert (Hc : is_Some (warm_scan self st dets).1.1 /\ is_Some (warm_scan self st dets).1.2).
  { unfold warm_scan, enumerate.
    destruct dets as [|d dets] using rev_ind; [done|].
    rewrite imap_app. cbn [imap]. rewrite foldl_snoc. simpl.
    destruct (foldl _ _ _) as [[xc yc] acc].
    unfold warm_scan_body. destruct (bbox_center (bbox d)) as [cx cy].
    destruct (bbox_contains (bbox d) cx cy); split; by eexists. }
  destruct (warm_scan self st dets) as [[xc yc] params]. simpl in Hp, Hc. subst params.
  destruct Hc as [Hxc Hyc].
  edestruct (warm_select_state st dets dets 0)
    as (st2 & E & Hpred & Hemb & Hg & Hmd & Hx & Hy); [done|].
  rewrite E. simpl in *.
  destruct (warm_selected self st dets) as [|a sel] eqn:Esel; simpl.
  - eexists. split; [reflexivity|]. simpl. rewrite Hpred, Hemb, Hg, Hmd. auto 10.
  - eexists. split; [reflexivity|]. simpl. rewrite Hpred, Hemb, Hg, Hmd. auto 10.
Qed.

Lemma adopt_seeded (face : Face) (st : TrackState) :
  seeded (adopt face st)
  /\ predictions (adopt face st) = predictions st ++ [[Some face]].
Proof.
  unfold adopt, seeded. destruct (bbox_center (bbox face)) as [cx cy]. simpl.
  repeat split; try by eexists. by destruct (face_embedding_list st).
Qed.

Lemma selection_of_one (dets : list Face) (face : Face) :
  In face dets -> selection_of self dets [Some face].
Proof.
  intros Hin. right. exists [face]. repeat split; [done|].
  by intros f [<-|[]].
Qed.

Lemma warm_selection_of (st : TrackState) (dets : list Face) :
  selection_of self dets match warm_selected self st dets with
                    | [] => [None]
                    | _ :: _ => Some <$> warm_selected self st dets
                    end.
Proof.
  destruct (warm_selected self st dets) as [|a sel] eqn:E; [by left|].
  right. exists (a :: sel). repeat split; [done| |].
  - intros face Hin. rewrite <- E in Hin. by apply warm_selected_In in Hin as [? _].
  - intros Hsingle. unfold warm_selected in E. rewrite Hsingle in E.
    destruct (List.filter (warm_test self st) dets) as [|b l]; [done|].
    simpl in E. by injection E as <- <-.
Qed.

(** One frame in a seeded state: exactly one selection, and the state stays
    seeded. *)
Lemma crop_dispatch_seeded (n : nat) (dets : list Face) (st : TrackState) :
  seeded st ->
  exists st' sel,
    crop_dispatch self n dets st = Ok st'
    /\ predictions st' = predictions st ++ [sel]
    /\ selection_of self dets sel
    /\ seeded st'.
Proof.
  intros ([xc Hx] & [yc Hy] & Hemb). unfold crop_dispatch.
  destruct dets as [|d dets].
  { eexists _, _. split; [reflexivity|]. split; [reflexivity|]. split; [by left|].
    unfold seeded. simpl. rewrite Hx, Hy. repeat split; by eauto. }
  rewrite Hx, Hy. destruct (face_embedding_list st) as [|e history] eqn:Ee; [done|].
  destruct (warm_step_state (d :: dets) st)
    as (st' & Hstep & Hpred & Hemb' & _ & _ & Hx' & Hy'); [done|].
  exists st'. eexists. split; [exact Hstep|]. split; [exact Hpred|].
  split; [apply warm_selection_of|].
  repeat split; [done..|]. rewrite Hemb', Ee. done.
Qed.

(** One frame in any state: at most one selection. *)
Lemma crop_dispatch_selection (n : nat) (dets : list Face) (st st' : TrackState) :
  crop_dispatch self n dets st = Ok st' ->
  predictions st' = predictions st
  \/ exists sel, predictions st' = predictions st ++ [sel]
                 /\ selection_of self dets sel.
Proof.
  destruct (x_center st) as [xc|] eqn:Ex, (y_center st) as [yc|] eqn:Ey.
  1: destruct (face_embedding_list st) as [|e history] eqn:Ee.
  2: { destruct (crop_dispatch_seeded n dets st) as (st1 & sel & E & Hp & Hs & _).
       { unfold seeded. rewrite Ex, Ey, Ee. repeat split; by eauto. }
       rewrite E. intros [= <-]. right. eauto. }
  all: unfold crop_dispatch; destruct dets as [|d dets];
    [intros [= <-]; right; exists [None]; split; [done|by left]|];
    rewrite ?Ex, ?Ey, ?Ee.
  2-4: intros [= <-]; right; exists [Some d];
       split; [apply adopt_seeded|apply selection_of_one; by left].
  unfold cold_selector_step.
  destruct (List.find _ (d :: dets)) as [found|] eqn:Ef.
  { intros [= <-]. right. exists [Some found]. split; [apply adopt_seeded|].
    apply selection_of_one. by apply find_some in Ef as [? _]. }
  destruct (n =? 0)%nat; [|intros [= <-]; by left].
  destruct (closest_loop (xc, yc) (d :: dets) (min_distance st) None)
    as [[md cf]|e] eqn:El; [|done].
  rewrite bind_Ok.
  pose proof (closest_loop_spec _ _ _ _ _ _ El) as Hloop. cbv zeta in Hloop.
  destruct Hloop as [(-> & -> & _) | (face & Hin & -> & _)];
    intros [= <-]; [by left|].
  right. exists [Some face]. split; [|by apply selection_of_one].
  destruct (adopt_seeded face (set_min_distance md st)) as [_ ->]. done.
Qed.

Lemma crop_loop_app (l1 l2 : list (Path Frame)) (n : nat) (st : TrackState) :
  crop_loop self n (l1 ++ l2) st
  = (crop_loop self n l1 st ≫= crop_loop self (n + length l1) l2).
Proof.
  revert n st. induction l1 as [|f l1 IH]; intros n st; simpl.
  - by rewrite Nat.add_0_r.
  - destruct (crop_step self n f st) as [st1|e]; [|done]. rewrite !bind_Ok.
    rewrite IH. by replace (S n + length l1)%nat with (n + S (length l1))%nat by lia.
Qed.

(** Frames in which no face is detected: one [[None]] each, and the state
    as it was. *)
Lemma crop_loop_no_faces (l : list (Path Frame)) (n : nat) (st : TrackState) :
  (forall f, In f l -> get_faces self (imread f) = []) ->
  crop_loop self n l st
  = Ok {| predictions := predictions st ++ replicate (length l) [None];
          face_embedding_list := face_embedding_list st;
          face_gender := face_gender st;
          x_center := x_center st; y_center := y_center st;
          min_distance := min_distance st |}.
Proof.
  revert n st. induction l as [|f l IH]; intros n st Hno.
  - simpl. rewrite app_nil_r. by destruct st.
  - cbn [crop_loop]. unfold crop_step. rewrite (Hno f) by (by left).
    cbn [crop_dispatch]. rewrite bind_Ok, IH by (intros g Hg; apply Hno; by right).
    simpl. by rewrite <- app_assoc.
Qed.

Lemma crop_loop_seeded (l : list (Path Frame)) (n : nat) (st : TrackState) :
  seeded st ->
  exists st' sels,
    crop_loop self n l st = Ok st'
    /\ predictions st' = predictions st ++ sels
    /\ length sels = length l
    /\ seeded st'.
Proof.
  revert n st. induction l as [|f l IH]; intros n st Hseed.
  - exists st, []. simpl. by rewrite app_nil_r.
  - cbn [crop_loop]. unfold crop_step.
    destruct (crop_dispatch_seeded n (get_faces self (imread f)) st Hseed)
      as (st1 & sel & -> & Hp1 & _ & Hseed1).
    rewrite bind_Ok.
    destruct (IH (S n) st1 Hseed1) as (st' & sels & -> & Hp & Hlen & Hseed').
    exists st', (sel :: sels). split; [done|]. split; [|split; [simpl; lia|done]].
    rewrite Hp, Hp1. by rewrite <- app_assoc.
Qed.

(** The loop from any state: what it appends are selections made on
    detections of its frames, at most one per frame. *)
Lemma crop_loop_selections (l : list (Path Frame)) (n : nat) (st st' : TrackState) :
  crop_loop self n l st = Ok st' ->
  exists sels,
    predictions st' = predictions st ++ sels
    /\ (length sels <= length l)%nat
    /\ forall sel, In sel sels ->
         exists f, In f l /\ selection_of self (get_faces self (imread f)) sel.
Proof.
  revert n st. induction l as [|f l IH]; intros n st.
  - intros [= <-]. exists []. simpl. rewrite app_nil_r. repeat split; [lia|].
    by intros sel [].
  - cbn [crop_loop]. unfold crop_step.
    destruct (crop_dispatch self n (get_faces self (imread f)) st) as [st1|e] eqn:E1;
      [|done].
    rewrite bind_Ok. intros Hloop.
    pose proof (crop_dispatch_selection _ _ _ _ E1) as Hone.
    destruct (IH (S n) st1 Hloop) as (sels & Hp & Hlen & Hsel).
    destruct Hone as [E|(sel & E & Hs)]; rewrite E in Hp.
    + exists sels. split; [done|]. split; [simpl; lia|].
      intros s Hs. destruct (Hsel s Hs) as (g & Hg & Hsg). exists g. split; [by right|done].
    + exists (sel :: sels).
      split; [by rewrite Hp, <- app_assoc|]. split; [simpl; lia|].
      intros s [<-|Hs'].
      * exists f. split; [by left|done].
      * destruct (Hsel s Hs') as (g & Hg & Hsg). exists g. split; [by right|done].
Qed.

(** The run of the tracker around the first frame in which a face is
    adopted: [k] frames without a face, then a frame on which the state
    [st1] is left seeded with one selection recorded, then the rest. *)
Lemma crop_loop_around_adoption (image_files : list (Path Frame)) (k : nat)
    (image_file : Path Frame) (st : TrackState) (sel : list (option Face))
    (st1 : TrackState) :
  predictions st = [] ->
  image_files !! k = Some image_file ->
  (forall j f, (j < k)%nat -> image_files !! j = Some f ->
               get_faces self (imread f) = []) ->
  crop_step self k image_file
    {| predictions := replicate k [None];
       face_embedding_list := face_embedding_list st;
       face_gender := face_gender st;
       x_center := x_center st; y_center := y_center st;
       min_distance := min_distance st |} = Ok st1 ->
  predictions st1 = replicate k [None] ++ [sel] ->
  seeded st1 ->
  exists st',
    crop_loop self 0 image_files st = Ok st'
    /\ length (predictions st') = length image_files
    /\ predictions st' !! k = Some sel
    /\ forall j, (j < k)%nat -> predictions st' !! j = Some [None].
Proof.
  intros Hp0 Hk Hno Hstep Hp1 Hseed.
  rewrite <- (take_drop_middle image_files k image_file Hk).
  rewrite crop_loop_app, crop_loop_no_faces.
  2:{ intros f Hf. apply list_elem_of_In, elem_of_take in Hf as (j & Hj & Hlt).
      by apply (Hno j). }
  rewrite bind_Ok. cbn [crop_loop].
  assert (Hlen : length (take k image_files) = k).
  { rewrite length_take. apply lookup_lt_Some in Hk. lia. }
  rewrite Hlen, Hp0. simpl app. simpl Nat.add. rewrite Hstep, bind_Ok.
  destruct (crop_loop_seeded (drop (S k) image_files) (S k) st1 Hseed)
    as (st' & sels & -> & Hp & Hsl & _).
  exists st'. split; [done|]. rewrite Hp, Hp1. split; [|split].
  - rewrite !length_app, length_replicate, Hsl, Hlen. simpl. lia.
  - rewrite <- app_assoc. rewrite lookup_app_r by (rewrite length_replicate; lia).
    by rewrite length_replicate, Nat.sub_diag.
  - intros j Hj. rewrite <- app_assoc.
    rewrite lookup_app_l by (rewrite length_replicate; lia).
    by apply lookup_replicate_2.
Qed.

(** Without a center the tracker appends one selection per frame. *)
Lemma crop_loop_no_selector (l : list (Path Frame)) (n : nat) (st : TrackState) :
  x_center st = None ->
  exists st',
    crop_loop self n l st = Ok st'
    /\ length (predictions st') = (length (predictions st) + length l)%nat.
Proof.
  revert n st. induction l as [|f l IH]; intros n st Hx.
  - exists st. split; [done|]. simpl. lia.
  - cbn [crop_loop]. unfold crop_step, crop_dispatch. rewrite Hx.
    destruct (get_faces self (imread f)) as [|d dets].
    + rewrite bind_Ok. destruct (IH (S n) (append_prediction [None] st) Hx)
        as (st' & -> & Hlen).
      exists st'. split; [done|]. rewrite Hlen. simpl. rewrite length_app. simpl. lia.
    + rewrite bind_Ok. destruct (adopt_seeded d st) as [Hseed Hp].
      destruct (crop_loop_seeded l (S n) (adopt d st) Hseed)
        as (st' & sels & -> & Hp' & Hlen & _).
      exists st'. split; [done|]. rewrite Hp', Hp, !length_app, Hlen. simpl. lia.
Qed.


Lemma find_first {A} (f : A -> bool) (l : list A) (i : nat) (a : A) :
  l !! i = Some a -> f a = true ->
  (forall j b, (j < i)%nat -> l !! j = Some b -> f b = false) ->
  List.find f l = Some a.
Proof.
  revert i. induction l as [|x l IH]; intros [|i] Hi Ha Hbefore; try done.
  - injection Hi as ->. simpl. by rewrite Ha.
  - simpl. rewrite (Hbefore 0%nat x) by (done || lia).
    apply (IH i); [done | done |]. intros j b Hj Hb. apply (Hbefore (S j) b); [lia|done].
Qed.



Lemma warm_selected_regular (st : TrackState) (dets : list Face) :
  (forall face, In face dets -> regular_box (bbox face)) ->
  warm_selected self st dets
  = let similar :=
      List.filter (fun face =>
                     is_similar_face self (normed_embedding face)
                       (face_embedding_list st) (similar_coeff self)) dets in
    if similarface self then similar else take 1 similar.
Proof.
  intros Hreg. unfold warm_selected. cbv zeta.
  assert (E : List.filter (warm_test self st) dets
              = List.filter (fun face =>
                     is_similar_face self (normed_embedding face)
                       (face_embedding_list st) (similar_coeff self)) dets).
  { induction dets as [|d dets IH]; [done|]. simpl.
    rewrite IH by (intros f Hf; apply Hreg; by right).
    specialize (Hreg d (or_introl eq_refl)). unfold regular_box in Hreg.
    destruct (bbox d) as [[[x1 y1] x2] y2] eqn:Eb. destruct Hreg as [Hx Hy].
    by rewrite (warm_test_is_similarity self st d x1 y1 x2 y2 Eb Hx Hy). }
  by rewrite E.
Qed.


(** ** The file names of the workers *)

Lemma string_app_inj_r (s t u : string) : (s ++ u = t ++ u)%string -> s = t.
Proof.
  revert t. induction s as [|c s IH]; intros [|d t] E.
  - done.
  - exfalso. apply (f_equal String.length) in E.
    rewrite !string_length_app in E. simpl in E. lia.
  - exfalso. apply (f_equal String.length) in E.
    rewrite !string_length_app in E. simpl in E. lia.
  - change (String c (s ++ u) = String d (t ++ u)) in E. injection E as -> E.
    f_equal. by apply IH.
Qed.

Lemma zeros_decode (k : nat) (digits : string) :
  NilEmpty.uint_of_string (String.concat "" (replicate k "0") ++ digits)
  = Nat.iter k (option_map Decimal.D0) (NilEmpty.uint_of_string digits).
Proof.
  induction k as [|k IH]; [done|].
  assert (E : String.concat "" (replicate (S k) "0")
              = String "0"%char (String.concat "" (replicate k "0"))).
  { simpl. destruct (replicate k "0"); reflexivity. }
  rewrite E.
  change (String "0"%char (String.concat "" (replicate k "0")) ++ digits)%string
    with (String "0"%char (String.concat "" (replicate k "0") ++ digits)).
  cbn [NilEmpty.uint_of_string]. rewrite IH. simpl Nat.iter.
  by destruct (Nat.iter k (option_map Decimal.D0) (NilEmpty.uint_of_string digits)).
Qed.

Lemma format_04d_decode (idx : nat) :
  option_map N.of_uint (NilEmpty.uint_of_string (format_04d idx)) = Some (N.of_nat idx).
Proof.
  unfold format_04d. cbv zeta. rewrite zeros_decode, NilEmpty.usu.
  generalize (4 - String.length (NilEmpty.string_of_uint (N.to_uint (N.of_nat idx))))%nat.
  intros k.
  assert (E : forall d, option_map N.of_uint (Nat.iter k (option_map Decimal.D0) (Some d))
                        = Some (N.of_uint d)).
  { induction k as [|k IH]; intros d; [done|]. simpl.
    specialize (IH d).
    destruct (Nat.iter k (option_map Decimal.D0) (Some d)) as [d'|]; [|done].
    simpl in *. injection IH as <-. done. }
  rewrite E. f_equal. apply DecimalN.Unsigned.of_to.
Qed.

Lemma frame_filename_inj (i j : nat) :
  frame_filename i = frame_filename j -> i = j.
Proof.
  unfold frame_filename. intros E.
  apply (String.app_inj "frame_") in E. apply string_app_inj_r in E.
  pose proof (format_04d_decode i) as Hi. rewrite E, format_04d_decode in Hi.
  injection Hi as Hi. lia.
Qed.

Lemma sortedb_take (l : list string) (n : nat) :
  sortedb l = true -> sortedb (take n l) = true.
Proof.
  revert n. induction l as [|a [|b l] IH]; intros [|n] Hs; try done.
  - by destruct n.
  - simpl in Hs. apply andb_true_iff in Hs as [Hab Hs].
    specialize (IH n Hs). destruct n as [|n]; [done|].
    simpl in *. by rewrite Hab, IH.
Qed.

Lemma first_10000_names_sorted :
  sortedb (frame_filename_N <$> iota 0 (N.to_nat 10000)) = true.
Proof. vm_compute. reflexivity. Qed.

Lemma frame_filename_seq (start : N) (len : nat) :
  frame_filename <$> seq (N.to_nat start) len = frame_filename_N <$> iota start len.
Proof.
  rewrite <- iota_seq, <- list_fmap_compose.
  apply list_fmap_ext. intros i k _. apply frame_filename_N_nat.
Qed.

Lemma sorted_names_up_to_10000 (n : nat) :
  (n <= N.to_nat 10000)%nat ->
  sorted_names (frame_filename <$> seq 0 n) = frame_filename <$> seq 0 n.
Proof.
  intros Hn. apply (Sorted_unique String.le).
  - apply Sorted_merge_sort. apply _.
  - apply sortedb_Sorted.
    replace (seq 0 n) with (take n (seq 0 (N.to_nat 10000))).
    2:{ rewrite take_seq. f_equal. lia. }
    rewrite fmap_take. apply sortedb_take.
    rewrite (frame_filename_seq 0). apply first_10000_names_sorted.
  - apply merge_sort_Permutation.
Qed.

(** ** The threaded strategy under any completion order *)

Lemma swap_executor_chain (dets : list (option Face)) (frame : Frame)
    (source_face : Face) :
  swap_executor self frame dets source_face
  = swap_chain self frame (selected_faces dets) source_face.
Proof.
  unfold swap_chain. revert frame.
  induction dets as [|[face|] dets IH]; intros frame; simpl; [done|apply IH|done].
Qed.

Lemma job_output_frame_output (args : Args Frame) :
  job_output self args
  = frame_output self (a_frame args) (a_face_det_result args) (a_source_face args).
Proof. unfold job_output, frame_output. by rewrite swap_executor_chain. Qed.

Lemma process_frame_progress (args : Args Frame) (w : World Frame) :
  progress (process_frame self args w).2 = S (progress w).
Proof.
  unfold process_frame.
  destruct (filter_status self (a_frame args)); [|done].
  rewrite swap_faces_selected, swap_all_chain. done.
Qed.

(** The pool after the jobs of [order] have completed, in that order: the
    futures of these jobs hold their file names, and the files hold what the
    jobs saved. *)
Lemma executor_fold (jobs : list (Args Frame)) (w : World Frame) (order : list nat) :
  NoDup (job_filename <$> jobs) ->
  (forall k, k ∈ order -> (k < length jobs)%nat) ->
  exists futures w',
    foldl (fun '(futures, w) k =>
             match jobs !! k with
             | Some args =>
                 let '(filename, w) := process_frame self args w in
                 (<[k := Some filename]> futures, w)
             | None => (futures, w)
             end)
          (replicate (length jobs) None, w) order = (futures, w')
    /\ length futures = length jobs
    /\ progress w' = (progress w + length order)%nat
    /\ forall k args,
         jobs !! k = Some args ->
         (k ∈ order ->
          futures !! k = Some (Some (job_filename args))
          /\ disk w' !! job_filename args = Some (job_output self args))
         /\ (k ∉ order -> futures !! k = Some None).
Proof.
  intros Hnd. induction order as [|k0 order IH] using rev_ind; intros Hlt.
  - eexists _, _. split; [reflexivity|]. split; [apply length_replicate|].
    split; [simpl; lia|]. intros k args Hk. split.
    + by intros ?%elem_of_nil.
    + intros _. apply lookup_replicate_2. by eapply lookup_lt_Some.
  - destruct IH as (futures & w1 & Hfold & Hlen & Hprog & Hspec).
    { intros k Hk. apply Hlt. apply elem_of_app. by left. }
    rewrite foldl_snoc, Hfold.
    destruct (lookup_lt_is_Some_2 jobs k0) as [args0 Hk0].
    { apply Hlt. apply elem_of_app. right. by apply list_elem_of_singleton. }
    rewrite Hk0.
    pose proof (process_frame_fst self args0 w1) as Hfst.
    pose proof (process_frame_disk self args0 w1) as Hdisk.
    pose proof (process_frame_progress args0 w1) as Hp.
    destruct (process_frame self args0 w1) as [filename w2]. simpl in Hfst, Hdisk, Hp.
    subst filename. eexists _, _. split; [reflexivity|].
    split; [by rewrite length_insert|].
    split; [rewrite Hp, Hprog, length_app; simpl; lia|].
    intros k args Hk. destruct (Hspec k args Hk) as [Hin Hout].
    destruct (decide (k = k0)) as [->|Hne].
    + assert (args = args0) as -> by congruence. split.
      * intros _. split.
        -- apply list_lookup_insert_eq. rewrite Hlen. by eapply lookup_lt_Some.
        -- rewrite Hdisk. apply lookup_insert_eq.
      * intros Hnot. exfalso. apply Hnot, elem_of_app. right.
        by apply list_elem_of_singleton.
    + rewrite list_lookup_insert_ne by done. split.
      * intros [Hk'|Hk']%elem_of_app; [|by apply list_elem_of_singleton in Hk'].
        destruct (Hin Hk') as [Hf Hd]. split; [done|].
        rewrite Hdisk, lookup_insert_ne; [done|].
        intros Heq. apply Hne. symmetry.
        eapply (NoDup_lookup _ _ _ _ Hnd); rewrite list_lookup_fmap.
        -- by rewrite Hk0.
        -- by rewrite Hk, Heq.
      * intros Hnot. apply Hout. intros Hk'. apply Hnot, elem_of_app. by left.
Qed.

Lemma executor_map_any_order (jobs : list (Args Frame)) (w : World Frame)
    (order : list nat) :
  NoDup (job_filename <$> jobs) ->
  order ≡ₚ seq 0 (length jobs) ->
  exists w',
    executor_map self order jobs w = (job_filename <$> jobs, w')
    /\ progress w' = (progress w + length jobs)%nat
    /\ forall args, In args jobs ->
         disk w' !! job_filename args = Some (job_output self args).
Proof.
  intros Hnd Hperm. unfold executor_map.
  destruct (executor_fold jobs w order Hnd) as (futures & w' & -> & Hlen & Hprog & Hspec).
  { intros k Hk. rewrite Hperm in Hk. apply elem_of_seq in Hk. lia. }
  exists w'. split; [|split].
  - f_equal. rewrite <- (omap_id_Some (job_filename <$> jobs)). f_equal.
    apply list_eq. intros k. rewrite !list_lookup_fmap.
    destruct (jobs !! k) as [args|] eqn:Hk; simpl.
    + apply (Hspec k args Hk). rewrite Hperm. apply elem_of_seq.
      apply lookup_lt_Some in Hk. lia.
    + apply lookup_ge_None. rewrite Hlen. by apply lookup_ge_None.
  - rewrite Hprog, Hperm, length_seq. done.
  - intros args Hin. apply list_elem_of_In, list_elem_of_lookup in Hin as [k Hk].
    apply (Hspec k args Hk). rewrite Hperm. apply elem_of_seq.
    apply lookup_lt_Some in Hk. lia.
Qed.


Lemma name_1001_after_name_10000 :
  String.leb (frame_filename_N 1001) (frame_filename_N 10000) = false.
Proof. vm_compute. reflexivity. Qed.


(** ** What the two strategies write *)

Lemma write_files_written (files : list (Path Frame)) (out : VideoWriter Frame) :
  write_files files out
  = {| fourcc := fourcc out; vw_fps := vw_fps out; frame_size := frame_size out;
       written := written out ++ (imread <$> files) |}.
Proof.
  unfold write_files. revert out. induction files as [|f files IH]; intros out.
  - simpl. rewrite app_nil_r. by destruct out.
  - cbn [foldl]. rewrite IH. simpl. by rewrite <- app_assoc.
Qed.

Lemma write_head_written (full : list (Path Frame)) (start_frame : option nat)
    (out : VideoWriter Frame) :
  write_head full start_frame out
  = {| fourcc := fourcc out; vw_fps := vw_fps out; frame_size := frame_size out;
       written := written out ++ head_frames full start_frame |}.
Proof.
  unfold write_head, head_frames. destruct (truthy start_frame).
  - apply write_files_written.
  - rewrite app_nil_r. by destruct out.
Qed.

Lemma write_tail_written (full : list (Path Frame)) (end_frame : option nat)
    (out : VideoWriter Frame) :
  write_tail full end_frame out
  = {| fourcc := fourcc out; vw_fps := vw_fps out; frame_size := frame_size out;
       written := written out ++ tail_frames full end_frame |}.
Proof.
  unfold write_tail, tail_frames. destruct (truthy end_frame).
  - apply write_files_written.
  - rewrite app_nil_r. by destruct out.
Qed.

Lemma write_processed_saved {A} (name : A -> string) (saved : A -> Frame)
    (l : list A) (w : World Frame) (out : VideoWriter Frame) :
  (forall a, In a l -> disk w !! name a = Some (saved a)) ->
  write_processed (name <$> l) w out
  = Ok {| fourcc := fourcc out; vw_fps := vw_fps out; frame_size := frame_size out;
          written := written out ++ (saved <$> l) |}.
Proof.
  revert out. induction l as [|a l IH]; intros out Hsaved.
  - simpl. rewrite app_nil_r. by destruct out.
  - simpl. rewrite (Hsaved a) by (by left).
    rewrite IH by (intros b Hb; apply Hsaved; by right).
    simpl. by rewrite <- app_assoc.
Qed.

(** The outputs of the jobs, frame by frame. *)
Lemma jobs_outputs (frame_files : list (Path Frame))
    (face_det_results : list (list (option Face))) (source_face : Face)
    (jobs : list (Args Frame)) :
  length face_det_results = length frame_files ->
  build_jobs frame_files face_det_results source_face = Ok jobs ->
  job_output self <$> jobs
  = zip_with (fun frame_file dets => frame_output self (imread frame_file) dets source_face)
             frame_files face_det_results.
Proof.
  intros Hlen Hjobs.
  destruct (build_jobs_spec frame_files face_det_results source_face Hlen)
    as (jobs' & Hjobs' & Hnames & Hjob).
  rewrite Hjobs in Hjobs'. injection Hjobs' as <-.
  assert (Hjl : length jobs = length frame_files).
  { by rewrite <- (length_fmap job_filename), Hnames, length_fmap, length_seq. }
  apply list_eq. intros i. rewrite list_lookup_fmap, lookup_zip_with.
  destruct (frame_files !! i) as [p|] eqn:Hp; simpl.
  - destruct (lookup_lt_is_Some_2 face_det_results i) as [d Hd].
    { rewrite Hlen. by eapply lookup_lt_Some. }
    rewrite Hd, (Hjob i p d Hp Hd). simpl. by rewrite job_output_frame_output.
  - rewrite (proj2 (lookup_ge_None jobs i)); [done|].
    rewrite Hjl. by apply lookup_ge_None.
Qed.

(** The threaded strategy, for at most 10000 frames in range and any
    completion order of the workers. *)
Lemma thread_writes (order : list nat) (dir : list (Path Frame)) (source_face : Face)
    (sel : option SquareFace) (multiface : bool) (fps : Q)
    (start_frame end_frame : option nat) (video_format : string) (w : World Frame)
    (first_file : Path Frame) (cc : string)
    (face_det_results : list (list (option Face))) :
  let full :=
    sorted_paths (List.filter (fun p => endswith (basename p) ".jpg"
                                        || endswith (basename p) ".png") dir) in
  let frame_files := select_range full start_frame end_frame in
  frame_files !! 0%nat = Some first_file ->
  video_fourcc video_format = Ok cc ->
  detect_phase self multiface frame_files sel = Ok face_det_results ->
  length face_det_results = length frame_files ->
  (length frame_files <= N.to_nat 10000)%nat ->
  order ≡ₚ seq 0 (length frame_files) ->
  exists w',
    swap_video_thread self order dir source_face sel multiface fps
      start_frame end_frame video_format w
    = Ok ({| fourcc := cc; vw_fps := fps;
             frame_size := ((shape (imread first_file)).2, (shape (imread first_file)).1);
             written :=
               head_frames full start_frame
               ++ zip_with (fun frame_file dets =>
                              frame_output self (imread frame_file) dets source_face)
                           frame_files face_det_results
               ++ tail_frames full end_frame |}, w')
    /\ progress w' = (progress w + length frame_files)%nat.
Proof.
  intros full frame_files H0 Hcc Hdet Hlen Hmax Hperm.
  destruct (build_jobs_spec frame_files face_det_results source_face Hlen)
    as (jobs & Hjobs & Hnames & Hjob).
  assert (Hjl : length jobs = length frame_files).
  { by rewrite <- (length_fmap job_filename), Hnames, length_fmap, length_seq. }
  assert (Hnd : NoDup (job_filename <$> jobs)).
  { rewrite Hnames. apply NoDup_fmap_2; [|apply NoDup_seq].
    intros i j. apply frame_filename_inj. }
  destruct (executor_map_any_order jobs w order Hnd) as (w' & Hexec & Hprog & Hdisk).
  { by rewrite Hjl. }
  exists w'. split; [|by rewrite Hprog, Hjl].
  unfold swap_video_thread. fold full. fold frame_files.
  rewrite (proj2 (getitem_Ok _ _ _) H0), bind_Ok.
  rewrite (surjective_pairing (shape (imread first_file))).
  rewrite Hcc, bind_Ok, Hdet, bind_Ok, Hjobs, bind_Ok, Hexec.
  assert (Hsort : sorted_names (job_filename <$> jobs) = job_filename <$> jobs).
  { rewrite Hnames. by apply sorted_names_up_to_10000. }
  rewrite Hsort, write_head_written.
  rewrite (write_processed_saved job_filename (job_output self)) by exact Hdisk.
  rewrite bind_Ok, write_tail_written. cbn [fourcc vw_fps frame_size written fst snd].
  rewrite (jobs_outputs frame_files face_det_results source_face jobs Hlen Hjobs).
  simpl. by rewrite <- app_assoc.
Qed.

Lemma cuda_loop_writes (frame_files : list (Path Frame)) (source_face : Face)
    (results : list (list (option Face))) (k : nat) (out : VideoWriter Frame)
    (w : World Frame) :
  (k + length results <= length frame_files)%nat ->
  exists w',
    cuda_loop self frame_files source_face
      (imap (fun i dets => ((k + i)%nat, dets)) results) out w
    = Ok ({| fourcc := fourcc out; vw_fps := vw_fps out; frame_size := frame_size out;
             written :=
               written out
               ++ zip_with (fun frame_file dets =>
                              frame_output self (imread frame_file) dets source_face)
                           (drop k frame_files) results |}, w')
    /\ disk w' = disk w /\ progress w' = progress w.
Proof.
  revert k out w. induction results as [|dets results IH]; intros k out w Hlen.
  - exists w. simpl. rewrite zip_with_nil_r, app_nil_r. by destruct out.
  - rewrite imap_cons. cbn [cuda_loop].
    destruct (lookup_lt_is_Some_2 frame_files k) as [p Hp]; [simpl in Hlen; lia|].
    rewrite Nat.add_0_r, (proj2 (getitem_Ok _ _ _) Hp), bind_Ok.
    rewrite (imap_ext _ (fun i dets0 => ((S k + i)%nat, dets0)))
      by (intros; simpl; f_equal; lia).
    rewrite (drop_S _ _ _ Hp). cbn [zip_with].
    assert (Hstep : exists w1,
      (if filter_status self (imread p)
       then swap_faces self (imread p) dets source_face w
       else (imread p, w))
      = (frame_output self (imread p) dets source_face, w1)
      /\ disk w1 = disk w /\ progress w1 = progress w).
    { unfold frame_output. destruct (filter_status self (imread p)).
      - rewrite swap_faces_selected, swap_all_chain. eexists. by repeat split.
      - by exists w. }
    destruct Hstep as (w1 & -> & Hd1 & Hp1).
    destruct (IH (S k) (out_write (frame_output self (imread p) dets source_face) out) w1)
      as (w' & -> & Hd & Hpr); [simpl in Hlen; lia|].
    exists w'. split; [|split; congruence].
    simpl. by rewrite <- app_assoc.
Qed.

(** The sequential strategy. *)
Lemma cuda_writes (dir : list (Path Frame)) (source_face : Face)
    (sel : option SquareFace) (multiface : bool) (fps : Q)
    (start_frame end_frame : option nat) (video_format : string) (w : World Frame)
    (first_file : Path Frame) (cc : string)
    (face_det_results : list (list (option Face))) :
  let full :=
    sorted_paths (List.filter (fun p => endswith (basename p) ".png") dir) in
  let frame_files := select_range full start_frame end_frame in
  frame_files !! 0%nat = Some first_file ->
  video_fourcc video_format = Ok cc ->
  detect_phase self multiface frame_files sel = Ok face_det_results ->
  (length face_det_results <= length frame_files)%nat ->
  exists w',
    swap_video_cuda self dir source_face sel multiface fps
      start_frame end_frame video_format w
    = Ok ({| fourcc := cc; vw_fps := fps;
             frame_size := ((shape (imread first_file)).2, (shape (imread first_file)).1);
             written :=
               head_frames full start_frame
               ++ zip_with (fun frame_file dets =>
                              frame_output self (imread frame_file) dets source_face)
                           frame_files face_det_results
               ++ tail_frames full end_frame |}, w')
    /\ disk w' = disk w /\ progress w' = progress w.
Proof.
  intros full frame_files H0 Hcc Hdet Hlen.
  unfold swap_video_cuda. fold full. fold frame_files.
  rewrite (proj2 (getitem_Ok _ _ _) H0), bind_Ok.
  rewrite (surjective_pairing (shape (imread first_file))).
  rewrite Hcc, bind_Ok, Hdet, bind_Ok, write_head_written.
  unfold enumerate.
  edestruct (cuda_loop_writes frame_files source_face face_det_results 0)
    as (w' & Hloop & Hd & Hp); [simpl; lia|].
  rewrite (imap_ext _ (fun i dets => ((0 + i)%nat, dets))) by done.
  rewrite Hloop, bind_Ok, write_tail_written.
  exists w'. split; [|done]. simpl. by rewrite <- app_assoc.
Qed.





(** ** [get_smoothened_boxes] *)

(** The array after the first [k] iterations: the entries from [k] on are
    the original ones, and an entry before [k] is the mean of its window in
    the array as it was when the entry was assigned. *)
Lemma smooth_run {Box} (np_mean : list Box -> Box) (boxes : list Box)
    (T : positive) (k : nat) :
  (k <= length boxes)%nat ->
  let run :=
    foldl (fun boxes i => <[i := np_mean (smooth_window boxes T i)]> boxes)
          boxes (seq 0 k) in
  length run = length boxes
  /\ drop k run = drop k boxes
  /\ forall i, (i < k)%nat ->
       run !! i = Some (np_mean (smooth_window (take i run ++ drop i boxes) T i)).
Proof.
  induction k as [|k IH]; intros Hk; cbv zeta.
  - simpl. repeat split. intros i Hi. lia.
  - rewrite seq_S, foldl_snoc. simpl Nat.add.
    destruct IH as (Hlen & Hdrop & Hbefore); [lia|].
    set (run := foldl _ boxes (seq 0 k)) in *.
    split; [by rewrite length_insert|]. split.
    + rewrite drop_insert_lt by lia.
      replace (S k) with (k + 1)%nat by lia.
      by rewrite <- !(drop_drop _ 1 k), Hdrop.
    + intros i Hi. destruct (decide (i = k)) as [->|Hne].
      * rewrite list_lookup_insert_eq by lia.
        rewrite take_insert_ge by lia.
        by rewrite <- Hdrop, take_drop.
      * rewrite list_lookup_insert_ne by done.
        rewrite take_insert_ge by lia. apply Hbefore. lia.
Qed.

Lemma smooth_length {Box} (np_mean : list Box -> Box) (boxes : list Box)
    (T : positive) :
  length (get_smoothened_boxes np_mean boxes T) = length boxes.
Proof. by destruct (smooth_run np_mean boxes T (length boxes)) as [? _]. Qed.

Lemma smooth_in_place {Box} (np_mean : list Box -> Box) (boxes : list Box)
    (T : positive) (i : nat) :
  (i < length boxes)%nat ->
  get_smoothened_boxes np_mean boxes T !! i
  = Some (np_mean (smooth_window
                     (take i (get_smoothened_boxes np_mean boxes T) ++ drop i boxes)
                     T i)).
Proof.
  intros Hi.
  destruct (smooth_run np_mean boxes T (length boxes)) as (_ & _ & Hbefore); [done|].
  by apply Hbefore.
Qed.



(** ** The choice of the strategy *)

Lemma prefix_app (sub s : string) :
  String.prefix sub s = true <-> exists post, s = (sub ++ post)%string.
Proof.
  revert s. induction sub as [|a sub IH]; intros s.
  - split; [|by destruct s]. intros _. by exists s.
  - destruct s as [|b s]; cbn [String.prefix].
    + split; [done|]. intros [post E]. discriminate E.
    + destruct (ascii_dec a b) as [->|Hne].
      * rewrite IH. split; intros [post E]; exists post.
        -- by rewrite E.
        -- by injection E.
      * split; [done|]. intros [post E]. injection E as E1 E2. by destruct Hne.
Qed.

(** [sub in s] holds exactly of the strings that have [sub] somewhere in
    them. *)
Lemma str_contains_iff (sub s : string) :
  str_contains sub s = true <-> exists pre post, s = (pre ++ sub ++ post)%string.
Proof.
  induction s as [|c s IH].
  - cbn [str_contains]. rewrite orb_false_r, prefix_app. split.
    + intros [post E]. by exists EmptyString, post.
    + intros (pre & post & E). destruct pre as [|? ?]; [|discriminate E].
      by exists post.
  - cbn [str_contains]. rewrite orb_true_iff, prefix_app, IH. split.
    + intros [[post E]|(pre & post & E)].
      * by exists EmptyString, post.
      * exists (String c pre), post. by rewrite E.
    + intros (pre & post & E). destruct pre as [|c' pre].
      * left. by exists post.
      * right. exists pre, post. by injection E.
Qed.


End Further.

(** * The properties on concrete inputs *)

Import Demo.

(** ** C1 *)

(** C1 fails on the code.  The tracker follows [faceA] (center (50, 50),
    gender 1).  In a frame whose only detection is [faceC], the embedding
    of [faceC] is similar to the history, its box does not contain the
    tracked center (50, 50) and its gender is not the tracked one: the
    stated rule does not hold of it, and by the claim it is not selected.
    The first loop of the warm branch assigns [x_center], [y_center] from
    the face under test (lines 206-207) before it compares them with the box
    of that face (line 210); the test holds, and [faceC] is selected, with
    one face per frame and with several. *)
Lemma warm_center_test_uses_own_center :
  is_similar_face (swapper false) (normed_embedding faceC)
    (face_embedding_list warm_state) (similar_coeff (swapper false)) = true
  /\ bbox_contains (bbox faceC) 50 50 = false
  /\ face_gender warm_state <> gender faceC
  /\ ~ spec_continuation (swapper false) warm_state faceC
  /\ is_center (mk_param (swapper false) warm_state 0 faceC) = true
  /\ (predictions <$> crop_step (swapper false) 1 frame_C warm_state : result _)
     = Ok [[Some faceA]; [Some faceC]]
  /\ (predictions <$> crop_step (swapper true) 1 frame_C warm_state : result _)
     = Ok [[Some faceA]; [Some faceC]]
  /\ ~ selects_by_spec_continuation (swapper false) warm_state 1 frame_C
  /\ ~ selects_by_spec_continuation (swapper true) warm_state 1 frame_C.
Proof.
  assert (Hnot : forall similarface,
             ~ spec_continuation (swapper similarface) warm_state faceC).
  { intros similarface [_ [(xc & yc & [= <-] & [= <-] & Hc)|Hg]]; discriminate. }
  assert (Hrule : forall similarface,
             ~ selects_by_spec_continuation (swapper similarface) warm_state 1 frame_C).
  { intros similarface Hrule. apply (Hnot similarface).
    assert (Hstep : exists st',
               crop_step (swapper similarface) 1 frame_C warm_state = Ok st'
               /\ last (predictions st') = Some [Some faceC]).
    { destruct similarface; eexists; split; reflexivity. }
    destruct Hstep as (st' & Hstep & Hlast).
    apply (Hrule st' [Some faceC] Hstep Hlast faceC); by left. }
  split; [reflexivity|]. split; [reflexivity|]. split; [discriminate|].
  split; [apply Hnot|]. split; [reflexivity|]. split; [reflexivity|].
  split; [reflexivity|]. split; apply Hrule.
Qed.

(** The [break] of lines 231-232: with one face per frame, a second face
    that passes the same test is left out.  The detector reports [faceA]
    and then [faceB], both with a similar embedding, a box around (50, 50)
    and gender 1; the selection is [faceA] alone. *)
Lemma warm_rule_fails_for_second_match :
  ~ selects_by_spec_continuation (swapper false) warm_state 1 frame_AB.
Proof.
  intros Hrule.
  assert (Hstep : exists st',
             crop_step (swapper false) 1 frame_AB warm_state = Ok st'
             /\ last (predictions st') = Some [Some faceA]).
  { eexists. split; reflexivity. }
  destruct Hstep as (st' & Hstep & Hlast).
  destruct (Hrule st' [Some faceA] Hstep Hlast faceB) as [_ Hsel].
  { right. by left. }
  destruct Hsel as [E|[]]; [|discriminate E].
  split; [reflexivity|]. left. exists 50, 50. repeat split.
Qed.


(** ** C6 *)

Lemma unsafe_frame_witness :
  filter_status (swapper false) (imread frame_unsafe) = false
  /\ process_frame (swapper false)
       {| a_frame := imread frame_unsafe; a_face_det_result := [Some faceA];
          a_source_face := source; a_idx := 3 |} empty_world
     = ("frame_0003.png",
        {| disk := {["frame_0003.png" := imread frame_unsafe]};
           swap_calls := []; progress := 1 |})
  /\ cuda_loop (swapper false) [frame_unsafe] source [(0%nat, [Some faceA])]
       {| fourcc := "mp4v"; vw_fps := 30; frame_size := (100, 100); written := [] |}
       empty_world
     = Ok ({| fourcc := "mp4v"; vw_fps := 30; frame_size := (100, 100);
              written := [imread frame_unsafe] |}, empty_world)
  /\ swap_image (swapper false) (imread frame_unsafe) source
       (Some selector_10_10) false empty_world
     = Ok (imread frame_unsafe, imwrite save_file (imread frame_unsafe) empty_world).
Proof.
  destruct (unsafe_frame_passes_through (swapper false) (imread frame_unsafe) eq_refl)
    as (Hworker & Hloop & Himage & _).
  split; [reflexivity|]. split; [|split].
  - exact (Hworker {| a_frame := imread frame_unsafe;
                      a_face_det_result := [Some faceA];
                      a_source_face := source; a_idx := 3 |} empty_world eq_refl).
  - exact (Hloop [frame_unsafe] source 0%nat [Some faceA] [] _ empty_world
             frame_unsafe eq_refl eq_refl).
  - exact (proj1 (Himage source (Some selector_10_10) false empty_world)).
Defined.

(** ** C7 *)

Lemma no_face_witness :
  get_faces (swapper false) (imread frame_empty) = []
  /\ swap_image (swapper false) (imread frame_empty) source None false empty_world
     = Raise (FaceNotDetectedError "Face is not detected in target image!")
  /\ crop_loop (swapper false) 0 [frame_empty; frame_far] warm_state
     = crop_loop (swapper false) 1 [frame_far] (append_prediction [None] warm_state)
  /\ face_detect_with_alignment_all (swapper false) [frame_far; frame_empty; frame_AB]
     = [[Some faceFar]; [None]; [Some faceA; Some faceB]].
Proof.
  destruct (no_face_fatal_for_image_tolerated_in_video (swapper false)
              (imread frame_empty) eq_refl)
    as (Himage & Hcrop & Hall & _).
  split; [reflexivity|]. split; [|split].
  - exact (Himage source None false empty_world (None, None) eq_refl eq_refl).
  - exact (proj2 (Hcrop 0%nat frame_empty [frame_far] warm_state eq_refl)).
  - exact (Hall [frame_far] frame_empty [frame_AB] eq_refl).
Defined.

(** ** C8 *)

Lemma faceFar_outside_selector (face : Face) :
  In face (get_faces (swapper false) (imread frame_far)) ->
  ~ (let '(x1, y1, x2, y2) := bbox face in
     (x1 <= inject_Z 10 /\ inject_Z 10 <= x2
      /\ y1 <= inject_Z 10 /\ inject_Z 10 <= y2)%Q).
Proof. intros [<-|[]] [Hx _]. by apply Qle_bool_iff in Hx. Defined.

Lemma nearest_fallback_witness :
  get_min_distance (imread frame_far) = Ok budget_100
  /\ get_faces (swapper false) (imread frame_far) <> []
  /\ crop_step (swapper false) 0 frame_far (crop_init (Some 10) (Some 10) budget_100)
     = Ok (crop_init (Some 10) (Some 10) budget_100)
  /\ crop_step (swapper false) 1 frame_far (crop_init (Some 10) (Some 10) budget_100)
     = Ok (crop_init (Some 10) (Some 10) budget_100).
Proof.
  assert (Hbudget : get_min_distance (imread frame_far) = Ok budget_100)
    by (vm_compute; reflexivity).
  assert (Hne : get_faces (swapper false) (imread frame_far) <> []) by discriminate.
  destruct (nearest_fallback_first_frame_within_budget (swapper false) frame_far
              10 10 budget_100 Hbudget Hne faceFar_outside_selector)
    as (_ & _ & _ & Hlater).
  split; [exact Hbudget|]. split; [exact Hne|]. split.
  - vm_compute. reflexivity.
  - apply Hlater; [discriminate | reflexivity | reflexivity | reflexivity].
Defined.

(** The fallback at work: on frame index 0 the nearer face is adopted (its
    center is 21.2 pixels from the selector center, the budget is 49.5); put
    after a frame without faces, the same frame adopts nothing. *)
Lemma nearest_fallback_examples :
  track false [frame_near] (Some selector_10_10) = Ok [[Some faceNear]]
  /\ track false [frame_empty; frame_near] (Some selector_10_10) = Ok [[None]].
Proof. split; vm_compute; reflexivity. Qed.

(** Rounding at the edge of the budget.  On [wide_frame] the distance is
    the float [0x1.bab80805ed3e2p+6] (110.67971810589327) and the budget the
    float [0x1.bab80805ed3e3p+6] (110.67971810589329), one unit in the last
    place above it: the test of line 192 holds and the face is adopted. *)
Lemma nearest_fallback_rounding :
  get_real_crop_box (imread wide_frame) (Some selector_10_5) = Ok (Some 10, Some 5)
  /\ get_center faceEdge = (73, 96)
  /\ euclidean_distance (10, 5) (73, 96)
     = Ok (S754_finite false 7788392769049570 (-46))
  /\ get_min_distance (imread wide_frame)
     = Ok (S754_finite false 7788392769049571 (-46))
  /\ track false [wide_frame] (Some selector_10_5) = Ok [[Some faceEdge]].
Proof. repeat split; vm_compute; reflexivity. Qed.

(** ** C9 *)

Lemma multiface_witness :
  exists results,
    detect_phase (swapper false) true [frame_empty; frame_AB] (Some selector_10_10)
    = Ok results
    /\ results !! 1%nat = Some [Some faceA; Some faceB].
Proof.
  destruct (multiface_selects_every_detection (swapper false)
              [frame_empty; frame_AB] (Some selector_10_10) None)
    as ((results & Hdet & _ & Hsel) & _).
  exists results. split; [exact Hdet|].
  apply (Hsel 1%nat frame_AB eq_refl). discriminate.
Defined.

(** ** C10 *)

Lemma image_selector_witness :
  filter_status (swapper false) (imread frame_far) = true
  /\ get_real_crop_box (imread frame_far) (Some selector_10_10) = Ok (Some 10, Some 10)
  /\ swap_image (swapper false) (imread frame_far) source (Some selector_10_10)
       false empty_world
     <> Raise crop_field_error.
Proof.
  assert (Hcrop : get_real_crop_box (imread frame_far) (Some selector_10_10)
                  = Ok (Some 10, Some 10)) by (vm_compute; reflexivity).
  split; [reflexivity|]. split; [exact Hcrop|].
  apply (image_selector_always_swaps (swapper false) (imread frame_far) source
           selector_10_10 10 10 empty_world eq_refl Hcrop).
  discriminate.
Defined.

(** The crop box in floats: for [x = 47.5] on a canvas 300 wide and a frame
    100 wide the center is [int(15.999999999999998)], that is 15; the face
    swapped is the one the selector center (10, 10) is nearest to. *)
Lemma image_selector_examples :
  get_real_crop_box (imread frame_far) (Some selector_47_5) = Ok (Some 15, Some 10)
  /\ (fst <$> swap_image (swapper false) (imread frame_near) source
                (Some selector_10_10) false empty_world : result _)
     = Ok (paste (imread frame_near) faceNear source).
Proof. split; vm_compute; reflexivity. Qed.

(** ** C4 *)

(** C4 fails on the code.  With a selector centered on (10, 10) and a first
    frame whose only face is far outside the budget, the tracker returns no
    selection at all for the one frame; when the first frame has no face and
    the next two have only the far face, it returns one selection for three
    frames.  The threaded strategy then raises [IndexError] and the
    sequential one writes no frame. *)
Lemma tracker_drops_selection_without_adoption :
  track false [frame_far] (Some selector_10_10) = Ok []
  /\ track false late_face_dir (Some selector_10_10) = Ok [[None]]
  /\ run_thread [0%nat] [frame_far] (Some selector_10_10) false None None
     = Raise IndexError
  /\ frame_ids (run_cuda [frame_far] (Some selector_10_10) false None None) = Ok [].
Proof. repeat split. Qed.

(** ** C3 *)

(** C3 fails on the code.  On a directory of three frames, both strategies
    write four frames when the range is [0..2] (frame 2 twice), when only
    [start_frame = 1] is given (frame 0 twice) and when only [end_frame = 2]
    is given (frame 2 twice). *)
Lemma frame_count_off_for_partial_ranges :
  frame_ids (run_thread [0; 1; 2]%nat (frames_dir 3) None true (Some 0%nat) (Some 2%nat))
  = Ok [0; 1; 2; 2]%nat
  /\ frame_ids (run_cuda (frames_dir 3) None true (Some 0%nat) (Some 2%nat))
     = Ok [0; 1; 2; 2]%nat
  /\ frame_ids (run_thread [0; 1; 2]%nat (frames_dir 3) None true (Some 1%nat) None)
     = Ok [0; 0; 1; 2]%nat
  /\ frame_ids (run_cuda (frames_dir 3) None true (Some 1%nat) None)
     = Ok [0; 0; 1; 2]%nat
  /\ frame_ids (run_thread [0; 1; 2]%nat (frames_dir 3) None true None (Some 2%nat))
     = Ok [0; 1; 2; 2]%nat
  /\ frame_ids (run_cuda (frames_dir 3) None true None (Some 2%nat))
     = Ok [0; 1; 2; 2]%nat.
Proof. repeat split; vm_compute; reflexivity. Qed.

(** ** C2 *)

(** C2 fails on the code.  On a directory holding [a.jpg] and [b.png] the
    threaded strategy processes both files and the sequential strategy only
    [b.png]. *)
Lemma strategies_differ_on_jpg :
  frame_ids (run_thread [0; 1]%nat mixed_dir None true None None) = Ok [0; 1]%nat
  /\ frame_ids (run_cuda mixed_dir None true None None) = Ok [1%nat].
Proof. split; vm_compute; reflexivity. Qed.

(** ** C5 *)

Lemma frames_dir_In (n : nat) (p : Path Img) :
  In p (frames_dir n) -> exists i, p = (name5 i ".png", img i true []).
Proof. unfold frames_dir. intros (i & <- & _)%in_map_iff. eauto. Qed.

Lemma frames_dir_png (n : nat) :
  List.filter (fun p : Path Img => endswith (basename p) ".jpg"
                                   || endswith (basename p) ".png")
              (frames_dir n)
  = frames_dir n.
Proof.
  apply filter_all. intros p (i & ->)%frames_dir_In. unfold basename, name5.
  cbn [fst]. rewrite <- string_app_assoc, endswith_app. apply orb_true_r.
Qed.

Lemma frames_dir_distinct (n : nat) : NoDup (imread <$> frames_dir n).
Proof.
  unfold frames_dir. change (@map) with (@fmap list _).
  rewrite <- list_fmap_compose. apply NoDup_fmap_2; [|apply NoDup_seq].
  intros i j E. by injection E.
Qed.

(** C5 fails on the code.  With 10001 frames in range the workers save
    [frame_0000.png] ... [frame_9999.png] and [frame_10000.png]; sorting the
    names puts [frame_10000.png] between [frame_1000.png] and
    [frame_1001.png].  On a directory of 10001 different frames, with the
    workers completing in the order of the frames, the run succeeds and
    output position 1001 holds input frame 10000, not input frame 1001.  And
    with only [start_frame = 1] on three frames, output position 1 holds
    input frame 0. *)
Lemma output_order_breaks_past_10000_frames :
  (let dir := frames_dir (S (N.to_nat 10000)) in
   let frame_files := sorted_paths dir in
   exists out w' p q,
     run_thread (seq 0 (S (N.to_nat 10000))) dir None true None None = Ok (out, w')
     /\ frame_files !! N.to_nat 1001 = Some p
     /\ frame_files !! N.to_nat 10000 = Some q
     /\ written out !! N.to_nat 1001 = Some (imread q)
     /\ imread q <> imread p)
  /\ (fun ids => ids !! 1%nat)
       <$> frame_ids (run_thread [2; 0; 1]%nat (frames_dir 3) None true (Some 1%nat) None)
     = Ok (Some 0%nat).
Proof.
  split; [|vm_compute; reflexivity].
  intros dir frame_files.
  assert (Hperm : frame_files ≡ₚ dir) by apply merge_sort_Permutation.
  assert (Hlen : length frame_files = S (N.to_nat 10000)).
  { rewrite Hperm. unfold dir, frames_dir. rewrite length_map. apply length_seq. }
  destruct (thread_last_frame_at_sorted_position (swapper false) dir source None
              true 30 ".mp4" empty_world
              (all_selection (swapper false) <$> frame_files) "mp4v"
              (N.to_nat 10000) (N.to_nat 1001)
              (frame_filename_N <$> index_order_10001))
    as (out & w' & q & d & Hrun & Hq & Hd & Hout).
  - unfold dir. rewrite frames_dir_png. exact Hlen.
  - reflexivity.
  - unfold dir. rewrite frames_dir_png. unfold detect_phase.
    rewrite face_detect_with_alignment_all_map. reflexivity.
  - unfold dir. rewrite frames_dir_png. apply length_fmap.
  - exact sorted_names_10001.
  - exact sorted_names_10001_at_1001.
  - unfold dir in Hq. rewrite frames_dir_png in Hq.
    fold dir in Hq. fold frame_files in Hq.
    destruct (lookup_lt_is_Some_2 frame_files (N.to_nat 1001)) as [p Hp]; [lia|].
    exists out, w', p, q. split; [exact Hrun|]. split; [exact Hp|].
    split; [exact Hq|]. split.
    + rewrite Hout. f_equal.
      rewrite list_lookup_fmap, Hq in Hd. injection Hd as <-.
      assert (Hin : In q dir).
      { apply list_elem_of_In. rewrite <- Hperm.
        eapply list_elem_of_lookup_2. exact Hq. }
      apply frames_dir_In in Hin as (i & ->). reflexivity.
    + intros E.
      assert (Hnd : NoDup (imread <$> frame_files)).
      { rewrite Hperm. apply frames_dir_distinct. }
      assert (Hi : N.to_nat 10000 = N.to_nat 1001).
      { apply (NoDup_lookup _ _ _ (imread q) Hnd).
        - rewrite list_lookup_fmap, Hq. reflexivity.
        - rewrite list_lookup_fmap, Hp, E. reflexivity. }
      lia.
Qed.

(** ** Further properties *)


(** With the selector center on (10, 10) and the detections [faceFar],
    [faceNear], neither of which contains it, the nearer face is returned. *)
Lemma source_frame_face_choice_example :
  face_detect_with_alignment_from_source_frame (swapper false) (imread frame_near)
    (Some selector_10_10) = Ok faceNear.
Proof. vm_compute. reflexivity. Qed.














